(** * ClashApi: a Rocq model of src/index.js

    The client class [ClashApi] of the repository, embedded shallowly:
    JavaScript values as an inductive type, objects as association lists,
    the constructor and [requestOptions] as functions, the methods that
    call the transport as computations over a world that holds the client
    object, the variables captured by the builders' closures and the list
    of the requests handed to [request]. *)

From Stdlib Require Import List String Ascii Bool ZArith Lia.
From Stdlib Require Import Numbers.DecimalString.
Import ListNotations.
Local Open Scope string_scope.
Local Open Scope list_scope.

(** ** JavaScript values *)

Module Js.

#[local] Set Warnings "-register-all".

(** Primitive values.  Numbers are the integers JavaScript holds exactly
    and prints in plain decimal, those of magnitude below 2^53; the client
    never computes with them, it only tests them for truthiness and
    prints them into template strings.  Fractions, NaN, the negative zero
    and the numbers printed with an exponent are not among the values. *)
Inductive prim : Type :=
| PUndef
| PNull
| PBool (b : bool)
| PNum (n : Z)
| PStr (s : string).

(** A value is a primitive or a plain object; an object is the list of its
    own enumerable properties.  These are the values the options of a
    request are made of here; arrays and functions are not among them. *)
Inductive value : Type :=
| VPrim (p : prim)
| VObj (props : list (string * value)).

Definition obj : Type := list (string * value).

Definition undefined : value := VPrim PUndef.
Definition VStr (s : string) : value := VPrim (PStr s).
Definition VNum (n : Z) : value := VPrim (PNum n).
Definition VBool (b : bool) : value := VPrim (PBool b).

(** The induction principle that reaches the values stored in an object. *)
Section ValueInd.
Variable P : value -> Prop.
Hypothesis Hprim : forall p, P (VPrim p).
Hypothesis Hobj : forall props, Forall (fun kv => P (snd kv)) props -> P (VObj props).

Fixpoint value_ind' (v : value) : P v :=
  match v with
  | VPrim p => Hprim p
  | VObj props =>
      Hobj props
        ((fix all (l : list (string * value)) : Forall (fun kv => P (snd kv)) l :=
            match l with
            | [] => Forall_nil _
            | kv :: l' => Forall_cons kv (value_ind' (snd kv)) (all l')
            end) props)
  end.
End ValueInd.

(** [o[k]]: the value of property [k], [None] when [o] has no such
    property (JavaScript then answers [undefined]). *)
Fixpoint get {A : Type} (k : string) (o : list (string * A)) : option A :=
  match o with
  | [] => None
  | (k', v) :: o' => if String.eqb k k' then Some v else get k o'
  end.

(** [k in o]. *)
Definition has {A : Type} (k : string) (o : list (string * A)) : bool :=
  match get k o with Some _ => true | None => false end.

(** [o[k] = v]: an existing property keeps its place, a new one is added
    at the end. *)
Fixpoint set {A : Type} (k : string) (v : A) (o : list (string * A)) : list (string * A) :=
  match o with
  | [] => [(k, v)]
  | (k', v') :: o' =>
      if String.eqb k k' then (k', v) :: o' else (k', v') :: set k v o'
  end.

(** Reading a property of any value: a primitive has none of its own. *)
Definition prop (k : string) (v : value) : option value :=
  match v with
  | VObj o => get k o
  | VPrim _ => None
  end.

(** [o.k1.k2...]: the value at the end of a path of property names. *)
Fixpoint get_path (p : list string) (v : value) : option value :=
  match p with
  | [] => Some v
  | k :: p' =>
      match prop k v with
      | Some v' => get_path p' v'
      | None => None
      end
  end.

(** ToBoolean. *)
Definition truthy (v : value) : bool :=
  match v with
  | VPrim PUndef => false
  | VPrim PNull => false
  | VPrim (PBool b) => b
  | VPrim (PNum n) => negb (Z.eqb n 0)
  | VPrim (PStr s) => negb (String.eqb s "")
  | VObj _ => true
  end.

(** [a || b]. *)
Definition or_else (a b : value) : value := if truthy a then a else b.

(** ToString, as a template literal applies it, on the values above. *)
Definition to_string (v : value) : string :=
  match v with
  | VPrim PUndef => "undefined"
  | VPrim PNull => "null"
  | VPrim (PBool true) => "true"
  | VPrim (PBool false) => "false"
  | VPrim (PNum n) => NilZero.string_of_int (Z.to_int n)
  | VPrim (PStr s) => s
  | VObj _ => "[object Object]"
  end.

(** Every level of an object has each property once. *)
Fixpoint keys_distinct (keys : list string) : bool :=
  match keys with
  | [] => true
  | k :: ks => negb (existsb (String.eqb k) ks) && keys_distinct ks
  end.

Fixpoint wf (v : value) : bool :=
  match v with
  | VPrim _ => true
  | VObj props =>
      keys_distinct (map fst props)
      && (fix all (l : list (string * value)) : bool :=
            match l with
            | [] => true
            | kv :: l' => wf (snd kv) && all l'
            end) props
  end.

End Js.

(** ** The library functions the module calls *)

(** lodash's [merge], as lodash 4 defines it, on the values above. *)
Module Lodash.
Import Js.

(** [assignMergeValue]: a defined value is assigned; [undefined] is
    assigned only where the object has no such property yet. *)
Definition assignMergeValue (object : obj) (key : string) (v : value) : obj :=
  match v with
  | VPrim PUndef => if has key object then object else set key v object
  | _ => set key v object
  end.

(** The value [baseMerge] stores under a key whose present value is
    [objValue] and whose source value is [srcValue]: a primitive as it is;
    an object merged, property by property, into the present value when
    that is an object and into a fresh object otherwise. *)
Fixpoint mergedValue (objValue : option value) (srcValue : value) {struct srcValue} : value :=
  match srcValue with
  | VPrim p => VPrim p
  | VObj source =>
      VObj (fold_left
              (fun object kv =>
                 assignMergeValue object (fst kv) (mergedValue (get (fst kv) object) (snd kv)))
              source
              (match objValue with
               | Some (VObj o) => o
               | _ => []
               end))
  end.

(** [baseMerge(object, source)] over the properties of [source]. *)
Definition baseMerge (object source : obj) : obj :=
  fold_left
    (fun object kv =>
       assignMergeValue object (fst kv) (mergedValue (get (fst kv) object) (snd kv)))
    source object.

(** The properties [baseMerge] walks in a source: those of an object; the
    characters of a string under their indices (one per octet, which is
    one per character for ASCII text); none otherwise.  An object is read
    here through [get]; the order in which JavaScript enumerates its
    properties (integer-like names first) is not modelled. *)
Fixpoint string_props (i : nat) (s : string) : obj :=
  match s with
  | EmptyString => []
  | String c s' =>
      (NilZero.string_of_uint (Nat.to_uint i), VStr (String c EmptyString))
        :: string_props (S i) s'
  end.

Definition own_props (source : value) : obj :=
  match source with
  | VObj o => o
  | VPrim (PStr s) => string_props 0 s
  | VPrim _ => []
  end.

(** [merge(object, ...sources)]: the sources are merged into [object] from
    left to right; a falsy source is passed over. *)
Definition merge (object : obj) (sources : list value) : obj :=
  fold_left
    (fun object source =>
       if truthy source then baseMerge object (own_props source) else object)
    sources object.

End Lodash.

Module Builtins.
Import Js.

Definition in_range (lo hi : nat) (c : ascii) : bool :=
  let n := nat_of_ascii c in Nat.leb lo n && Nat.leb n hi.

Definition is_lower (c : ascii) : bool := in_range 97 122 c.
Definition is_upper (c : ascii) : bool := in_range 65 90 c.
Definition is_digit (c : ascii) : bool := in_range 48 57 c.

Fixpoint mem_ascii (c : ascii) (s : string) : bool :=
  match s with
  | EmptyString => false
  | String c' s' => Ascii.eqb c c' || mem_ascii c s'
  end.

(** The characters [encodeURIComponent] leaves as they are. *)
Definition uriUnreserved (c : ascii) : bool :=
  is_upper c || is_lower c || is_digit c || mem_ascii c "-_.!~*'()".

Definition hex_digit (n : nat) : ascii :=
  match String.get n "0123456789ABCDEF" with
  | Some c => c
  | None => "0"%char
  end.

Definition percent (c : ascii) : string :=
  let n := nat_of_ascii c in
  String "%" (String (hex_digit (n / 16)) (String (hex_digit (n mod 16)) EmptyString)).

(** A string is the sequence of the octets of its UTF-8 form, which is
    what [encodeURIComponent] escapes one by one. *)
Fixpoint encode (s : string) : string :=
  match s with
  | EmptyString => EmptyString
  | String c s' =>
      if uriUnreserved c then String c (encode s') else percent c ++ encode s'
  end.

Definition encodeURIComponent (v : value) : string := encode (to_string v).

(** [toUpperCase] on one character of ASCII text; the letters outside
    ASCII, which JavaScript upper-cases too, are left as they are. *)
Definition toUpperCase (c : ascii) : ascii :=
  if is_lower c then ascii_of_nat (nat_of_ascii c - 32) else c.

End Builtins.

(** ** src/index.js *)

Module Index.
Import Js Lodash Builtins.

(** What the module reads from outside: [process.env.COC_API_TOKEN], unset
    or a string, and the [uri] of the module [../config]. *)
Record environment : Type := {
  COC_API_TOKEN : option string;
  config_uri : value
}.

Definition env_COC_API_TOKEN (e : environment) : value :=
  match COC_API_TOKEN e with
  | Some s => VStr s
  | None => undefined
  end.

(** What is thrown.  [NotAFunction name] is the TypeError of a call
    [x.name(...)] whose [x.name] is no function: its message is the text
    of the caller's expression followed by "is not a function", of which
    the module knows the name only. *)
Inductive exn : Type :=
| Error (message : string)
| ReferenceError (message : string)
| TypeError (message : string)
| NotAFunction (name : string).

Inductive outcome (A : Type) : Type :=
| Return (a : A)
| Throw (e : exn).
Arguments Return {A} a.
Arguments Throw {A} e.

Definition capitalizeFirstLetter (s : string) : string :=
  match s with
  | EmptyString => EmptyString
  | String c rest => String (toUpperCase c) rest
  end.

(** *** The class *)

Record ClashApi : Type := {
  token : value;
  uri : value;
  _requestDefaults : value
}.

(** A property the parameter pattern [{uri, token, request}] binds. *)
Definition destructure (k : string) (cfg : obj) : value :=
  match get k cfg with
  | Some v => v
  | None => undefined
  end.

Definition no_token_message : string :=
  "Deve definir uma opção de token ou variável de ambiente COC_API_TOKEN".

(** [new ClashApi(arg)]; the argument, when there is one, is an object,
    and [{}] stands in for a missing one. *)
Definition constructor (e : environment) (arg : option obj) : outcome ClashApi :=
  let cfg := match arg with Some o => o | None => [] end in
  let this :=
    {| token := or_else (destructure "token" cfg) (env_COC_API_TOKEN e);
       uri := or_else (destructure "uri" cfg) (config_uri e);
       _requestDefaults := or_else (destructure "request" cfg) (VObj []) |} in
  if negb (truthy (token this)) then Throw (Error no_token_message)
  else Return this.

(** [module.exports]: [new factory(config)] is [new ClashApi(config)]. *)
Definition factory (e : environment) (config : option obj) : outcome ClashApi :=
  constructor e config.

(** The object literal [requestOptions] merges into. *)
Definition base_template (this : ClashApi) : obj :=
  [ ("headers",
     VObj [ ("Accept", VStr "application/json");
            ("authorization", VStr ("Bearer " ++ to_string (token this))) ]);
    ("json", VBool true) ].

Definition requestOptions (this : ClashApi) (opts : value) : obj :=
  merge (base_template this) [opts; _requestDefaults this].

(** *** The world the methods run in *)

(** The functions the module creates, each with the variables its closure
    captured (as addresses of their cells). *)
Inductive closure : Type :=
| ClansFetch (qs : nat)
| ClansWith (qs : nat) (field : string) (builder : nat)
| LocationsFetch
| WithId
| ByClan (rankId rankingDsl : nat)
| ByPlayer (rankId rankingDsl : nat)
| RankingFetch (locId : value) (rankId : nat)
| LocFetch (locId : value).

(** A cell holds a captured variable ([qs], [rankId]; [rankingDsl], a
    [const] that has no value before its initialiser has run) or an object
    made of functions (a builder). *)
Inductive cell : Type :=
| CVal (v : value)
| CUninit
| CRef (a : nat)
| CObject (members : list (string * closure)).

Record world : Type := {
  self : ClashApi;
  heap : list cell;
  sent : list value
}.

(** What a call evaluates to: one of the module's objects, the promise
    of the n-th request, or a value that is neither. *)
Inductive jsref : Type :=
| RObj (a : nat)
| RPromise (n : nat)
| ROther.

Definition M (A : Type) : Type := world -> outcome A * world.

Definition ret {A : Type} (a : A) : M A := fun w => (Return a, w).
Definition throw {A : Type} (e : exn) : M A := fun w => (Throw e, w).
Definition bind {A B : Type} (m : M A) (f : A -> M B) : M B :=
  fun w =>
    match m w with
    | (Return a, w') => f a w'
    | (Throw e, w') => (Throw e, w')
    end.

Notation "x <- m ;; k" := (bind m (fun x => k))
  (at level 61, m at next level, right associativity).
Notation "m ;;; k" := (bind m (fun _ => k))
  (at level 61, right associativity).

Definition this : M ClashApi := fun w => (Return (self w), w).

(** An assignment to the client object. *)
Definition set_this (c : ClashApi) : M unit :=
  fun w => (Return tt, {| self := c; heap := heap w; sent := sent w |}).

(** The fields of the client, and where the first argument of a [merge]
    lives: an object literal evaluated for the call, or a field of the
    client. *)
Inductive field : Type := Ftoken | Furi | F_requestDefaults.

Definition field_value (f : field) (c : ClashApi) : value :=
  match f with
  | Ftoken => token c
  | Furi => uri c
  | F_requestDefaults => _requestDefaults c
  end.

Definition with_field (f : field) (v : value) (c : ClashApi) : ClashApi :=
  match f with
  | Ftoken => {| token := v; uri := uri c; _requestDefaults := _requestDefaults c |}
  | Furi => {| token := token c; uri := v; _requestDefaults := _requestDefaults c |}
  | F_requestDefaults => {| token := token c; uri := uri c; _requestDefaults := v |}
  end.

Inductive place : Type :=
| Literal (o : obj)
| Field (f : field).

(** [merge(object, ...sources)] as a statement: lodash merges into its
    first argument and returns it, so that an object held by the client
    is changed by a merge into it, and a literal is not seen again. *)
Definition merge_into (object : place) (sources : list value) : M obj :=
  match object with
  | Literal o => ret (merge o sources)
  | Field f =>
      c <- this ;;
      match field_value f c with
      | VObj o =>
          set_this (with_field f (VObj (merge o sources)) c) ;;;
          ret (merge o sources)
      | VPrim x => ret (merge [] sources)
      end
  end.

(** [this.requestOptions(opts)] as the methods call it: the merge goes
    into the object literal of the base template. *)
Definition this_requestOptions (opts : value) : M obj :=
  c <- this ;;
  merge_into (Literal (base_template c)) [opts; _requestDefaults c].

Definition alloc (c : cell) : M nat :=
  fun w =>
    (Return (List.length (heap w)),
     {| self := self w; heap := heap w ++ [c]; sent := sent w |}).

Definition read (a : nat) : M cell :=
  fun w => (Return (nth a (heap w) CUninit), w).

Fixpoint replace_at {A : Type} (n : nat) (x : A) (l : list A) : list A :=
  match l, n with
  | [], _ => []
  | _ :: l', O => x :: l'
  | y :: l', S n' => y :: replace_at n' x l'
  end.

Definition write (a : nat) (c : cell) : M unit :=
  fun w =>
    (Return tt,
     {| self := self w; heap := replace_at a c (heap w); sent := sent w |}).

(** [request(options)]: the transport is handed the options and answers
    with a promise. *)
Definition request (options : obj) : M jsref :=
  fun w =>
    (Return (RPromise (List.length (sent w))),
     {| self := self w; heap := heap w; sent := sent w ++ [VObj options] |}).

(** The value of a variable and the object a variable refers to. *)
Definition read_var (a : nat) : M value :=
  c <- read a ;;
  match c with
  | CVal v => ret v
  | _ => ret undefined
  end.

Definition read_const (name : string) (a : nat) : M nat :=
  c <- read a ;;
  match c with
  | CRef r => ret r
  | _ => throw (ReferenceError ("Cannot access '" ++ name ++ "' before initialization"))
  end.

(** [object[name] = f] on an object made of functions. *)
Definition define (a : nat) (name : string) (f : closure) : M unit :=
  c <- read a ;;
  match c with
  | CObject members => write a (CObject (set name f members))
  | _ => ret tt
  end.

(** [qs[field] = input]. *)
Definition assign_property (a : nat) (field : string) (input : value) : M unit :=
  c <- read a ;;
  match c with
  | CVal (VObj o) => write a (CVal (VObj (set field input o)))
  | _ => ret tt
  end.

Definition arg (i : nat) (args : list value) : value := nth i args undefined.

(** *** The methods that fetch directly *)

(** What all of them do, [request(this.requestOptions({uri: ...}))] with
    the uri of the client followed by a path. *)
Definition fetch_uri (path : string) : M jsref :=
  c <- this ;;
  options <- this_requestOptions (VObj [("uri", VStr (to_string (uri c) ++ path))]) ;;
  request options.

Definition clanByTag (tag : value) : M jsref :=
  fetch_uri ("/clans/" ++ encodeURIComponent tag).

Definition clanMembersByTag (tag : value) : M jsref :=
  fetch_uri ("/clans/" ++ encodeURIComponent tag ++ "/members").

Definition clanWarlogByTag (tag : value) : M jsref :=
  fetch_uri ("/clans/" ++ encodeURIComponent tag ++ "/warlog").

Definition clanCurrentWarByTag (tag : value) : M jsref :=
  fetch_uri ("/clans/" ++ encodeURIComponent tag ++ "/currentwar").

Definition clanLeague (tag : value) : M jsref :=
  fetch_uri ("/clans/" ++ encodeURIComponent tag ++ "/currentwar/leaguegroup").

Definition clanLeagueWars (tag : value) : M jsref :=
  fetch_uri ("/clanwarleagues/wars/" ++ encodeURIComponent tag).

Definition leagues : M jsref :=
  fetch_uri "/leagues".

Definition playerByTag (tag : value) : M jsref :=
  fetch_uri ("/players/" ++ encodeURIComponent tag).

(** *** The clan-search builder *)

Definition clans_fields : list string :=
  [ "name"; "warFrequency"; "locationId"; "minMembers"; "maxMembers";
    "minClanPoints"; "minClanLevel"; "limit"; "after"; "before" ].

(** [array.reduce(f, init)] with a callback that works on the heap. *)
Fixpoint reduce {A B : Type} (f : B -> A -> M B) (l : list A) (init : B) : M B :=
  match l with
  | [] => ret init
  | x :: l' => b <- f init x ;; reduce f l' b
  end.

Definition clans : M jsref :=
  qs <- alloc (CVal (VObj [])) ;;
  init <- alloc (CObject [("fetch", ClansFetch qs)]) ;;
  dsl <- reduce
           (fun builder field =>
              define builder ("with" ++ capitalizeFirstLetter field)
                (ClansWith qs field builder) ;;;
              ret builder)
           clans_fields init ;;
  ret (RObj dsl).

(** *** The location builder *)

(** The identifiers the module binds at its top level, and those of the
    global object it refers to. *)
Definition module_scope : list string :=
  [ "request"; "config"; "merge"; "env"; "capitalizeFirstLetter";
    "ClashApi"; "factory" ].

Definition global_scope : list string :=
  [ "process"; "module"; "encodeURIComponent"; "Error" ].

Definition resolve (scope : list string) (name : string) : M unit :=
  if existsb (String.eqb name) scope then ret tt
  else throw (ReferenceError (name ++ " is not defined")).

(** lodash's [assign(object, source)], for the scopes that bind it: the
    properties of the source are copied onto the object, which is
    returned. *)
Definition assign (object source : nat) : M nat :=
  c <- read source ;;
  match c with
  | CObject members =>
      reduce (fun o kf => define o (fst kf) (snd kf) ;;; ret o) members object
  | _ => ret object
  end.

(** The body of [withId], with the identifiers in scope as a parameter. *)
Definition withId_in (scope : list string) (locId : value) : M jsref :=
  rankId <- alloc (CVal undefined) ;;
  rankingDsl <- alloc CUninit ;;
  rankingDslMembers <-
    alloc (CObject [ ("byClan", ByClan rankId rankingDsl);
                     ("byPlayer", ByPlayer rankId rankingDsl) ]) ;;
  resolve scope "assign" ;;;
  target <- alloc (CObject [("fetch", RankingFetch locId rankId)]) ;;
  r <- assign target rankingDslMembers ;;
  write rankingDsl (CRef r) ;;;
  resolve scope "assign" ;;;
  target' <- alloc (CObject [("fetch", LocFetch locId)]) ;;
  locDsl <- assign target' rankingDslMembers ;;
  ret (RObj locDsl).

Definition withId : value -> M jsref :=
  withId_in (module_scope ++ global_scope).

Definition locations : M jsref :=
  dsl <- alloc (CObject [("fetch", LocationsFetch); ("withId", WithId)]) ;;
  ret (RObj dsl).

(** *** Calling the functions *)

(** [f.apply(receiver, args)].  The functions made with [.bind(this)] and
    the arrow functions see the client as [this]; [LocFetch] is not bound,
    so its [this] is the object it is called on, one whose properties are
    [fetch], [byClan] and [byPlayer]: its [this.requestOptions] is
    [undefined], and calling that is a type error. *)
Definition call (f : closure) (args : list value) : M jsref :=
  match f with
  | ClansFetch qs =>
      q <- read_var qs ;;
      c <- this ;;
      options <- this_requestOptions
                   (VObj [ ("qs", q);
                           ("uri", VStr (to_string (uri c) ++ "/clans")) ]) ;;
      request options
  | ClansWith qs field builder =>
      assign_property qs field (arg 0 args) ;;;
      ret (RObj builder)
  | LocationsFetch =>
      fetch_uri "/locations"
  | WithId =>
      withId (arg 0 args)
  | ByClan rankId rankingDsl =>
      write rankId (CVal (VStr "clans")) ;;;
      r <- read_const "rankingDsl" rankingDsl ;;
      ret (RObj r)
  | ByPlayer rankId rankingDsl =>
      write rankId (CVal (VStr "players")) ;;;
      r <- read_const "rankingDsl" rankingDsl ;;
      ret (RObj r)
  | RankingFetch locId rankId =>
      r <- read_var rankId ;;
      fetch_uri ("/locations/" ++ encodeURIComponent locId
                 ++ "/rankings/" ++ to_string r)
  | LocFetch locId =>
      throw (TypeError "this.requestOptions is not a function")
  end.

(** What the objects of the module, being object literals, inherit from
    [Object.prototype].  The arguments of a call are values, none of them
    a function: [valueOf] returns the object, [__defineGetter__] and
    [__defineSetter__] throw for want of a function, the others return a
    value that is not an object of the module. *)
Definition inherited_returning : list string :=
  [ "constructor"; "hasOwnProperty"; "isPrototypeOf"; "propertyIsEnumerable";
    "toLocaleString"; "toString"; "__lookupGetter__"; "__lookupSetter__" ].

Definition inherited_throwing : list string :=
  [ "__defineGetter__"; "__defineSetter__" ].

Definition inherited (a : nat) (name : string) : option (M jsref) :=
  if String.eqb name "valueOf" then Some (ret (RObj a))
  else if existsb (String.eqb name) inherited_returning then Some (ret ROther)
  else if existsb (String.eqb name) inherited_throwing then
    Some (throw (TypeError ("Object.prototype." ++ name ++ ": Expecting function")))
  else None.

(** [object[name](...args)] on one of the module's objects: an own
    property first, then an inherited one. *)
Definition invoke (a : nat) (name : string) (args : list value) : M jsref :=
  c <- read a ;;
  match c with
  | CObject members =>
      match get name members with
      | Some f => call f args
      | None =>
          match inherited a name with
          | Some m => m
          | None => throw (NotAFunction name)
          end
      end
  | _ => throw (NotAFunction name)
  end.

(** *** What a caller does with a client *)

Inductive method : Type :=
| MclanByTag
| MclanMembersByTag
| MclanWarlogByTag
| MclanCurrentWarByTag
| MclanLeague
| MclanLeagueWars
| Mclans
| Mlocations
| Mleagues
| MplayerByTag.

Definition call_method (m : method) (args : list value) : M jsref :=
  match m with
  | MclanByTag => clanByTag (arg 0 args)
  | MclanMembersByTag => clanMembersByTag (arg 0 args)
  | MclanWarlogByTag => clanWarlogByTag (arg 0 args)
  | MclanCurrentWarByTag => clanCurrentWarByTag (arg 0 args)
  | MclanLeague => clanLeague (arg 0 args)
  | MclanLeagueWars => clanLeagueWars (arg 0 args)
  | Mclans => clans
  | Mlocations => locations
  | Mleagues => leagues
  | MplayerByTag => playerByTag (arg 0 args)
  end.

(** [.name1(args1).name2(args2)...] on what a call returned.  The chain is
    followed over the module's own objects; what the caller does with the
    promise of a request, or with another value, is not the module's. *)
Fixpoint links (r : jsref) (l : list (string * list value)) : M jsref :=
  match l with
  | [] => ret r
  | (name, args) :: l' =>
      match r with
      | RObj a => r' <- invoke a name args ;; links r' l'
      | RPromise _ | ROther => ret r
      end
  end.

(** [client.m(args).name1(args1)...]. *)
Record chain : Type := {
  first : method;
  first_args : list value;
  rest : list (string * list value)
}.

Definition run_chain (c : chain) : M jsref :=
  r <- call_method (first c) (first_args c) ;;
  links r (rest c).

(** One chain after another, whatever each of them returned or threw. *)
Fixpoint run_all (cs : list chain) (w : world) : world :=
  match cs with
  | [] => w
  | c :: cs' => run_all cs' (snd (run_chain c w))
  end.

(** The world of a client that has just been constructed. *)
Definition fresh (c : ClashApi) : world :=
  {| self := c; heap := []; sent := [] |}.

(** The method the transport uses: GET unless the options name one. *)
Definition http_method (options : value) : string :=
  match prop "method" options with
  | Some v => if truthy v then to_string v else "GET"
  | None => "GET"
  end.

End Index.

(** ** The vocabulary of the statements *)

Module Spec.
Import Js Lodash Builtins Index.

(** What a property holds after a merge, from what it held before and
    what the source has for it. *)
Definition merged_at (objValue : option value) (srcValue : value) : option value :=
  match srcValue with
  | VPrim PUndef =>
      match objValue with
      | Some v => Some v
      | None => Some undefined
      end
  | _ => Some (mergedValue objValue srcValue)
  end.

(** The object [merge] sees in a source. *)
Definition seen (source : value) : value := VObj (own_props source).

(** A source sets the path [p] to the primitive [x]: it has a defined
    primitive value there. *)
Definition sets (source : value) (p : list string) (x : prim) : Prop :=
  x <> PUndef /\ get_path p (seen source) = Some (VPrim x).

(** A source leaves the path [p] alone: somewhere along [p] it has no
    property, or [undefined]. *)
Fixpoint leaves_alone (p : list string) (source : obj) : bool :=
  match p with
  | [] => false
  | k :: p' =>
      match get k source with
      | None => true
      | Some (VPrim PUndef) => true
      | Some (VPrim _) => false
      | Some (VObj source') => leaves_alone p' source'
      end
  end.

Definition silent (source : value) (p : list string) : Prop :=
  leaves_alone p (own_props source) = true.

Definition well_formed (source : value) : Prop := wf (seen source) = true.

(** The token the caller passed to the constructor, and what it is for a
    source to supply one: [token || env.COC_API_TOKEN] takes the first of
    the two that is truthy. *)
Definition passed_token (arg : option obj) : value :=
  match arg with
  | Some cfg => destructure "token" cfg
  | None => undefined
  end.

Definition supplies (v : value) : Prop := truthy v = true.

(** The caller passes a token: the configuration has a truthy value under
    [token].  The environment gives one: COC_API_TOKEN is set to a string
    that is not empty. *)
Definition token_given (arg : option obj) : Prop :=
  exists cfg v, arg = Some cfg /\ get "token" cfg = Some v /\ truthy v = true.

Definition env_gives (e : environment) : Prop :=
  exists t, COC_API_TOKEN e = Some t /\ t <> "".

(** The options the methods of the class pass to [requestOptions]: a uri,
    and for the clan search the query parameters as well. *)
Inductive per_call : value -> Prop :=
| per_call_uri u : per_call (VObj [("uri", VStr u)])
| per_call_qs q u : per_call (VObj [("qs", q); ("uri", VStr u)]).

(** The header of a request under a name; the names of HTTP headers are
    matched without regard to case, and of two spellings of one name the
    later one is the one sent. *)
Definition toLowerCase (c : ascii) : ascii :=
  if is_upper c then ascii_of_nat (nat_of_ascii c + 32) else c.

Fixpoint lower (s : string) : string :=
  match s with
  | EmptyString => EmptyString
  | String c s' => String (toLowerCase c) (lower s')
  end.

Fixpoint get_caseless (name : string) (hs : obj) : option value :=
  match hs with
  | [] => None
  | (k, v) :: hs' =>
      match get_caseless name hs' with
      | Some v' => Some v'
      | None => if String.eqb (lower name) (lower k) then Some v else None
      end
  end.

Definition header (name : string) (options : value) : option value :=
  match prop "headers" options with
  | Some (VObj hs) => get_caseless name hs
  | _ => None
  end.

(** A world with another heap, and with another list of requests. *)
Definition with_heap (w : world) (h : list cell) : world :=
  {| self := self w; heap := h; sent := sent w |}.

Definition with_sent (w : world) (s : list value) : world :=
  {| self := self w; heap := heap w; sent := s |}.

(** The name of the setter of a field of the clan search, and the
    functions the builder has once [clans] has returned it. *)
Definition setter_name (field : string) : string :=
  "with" ++ capitalizeFirstLetter field.

Definition clans_members (qs builder : nat) : list (string * closure) :=
  fold_left
    (fun members field => set (setter_name field) (ClansWith qs field builder) members)
    clans_fields [("fetch", ClansFetch qs)].

(** In the world [w] the builder at [b] is one that [clans] returned, and
    the filters recorded in its mapping, at [qs], are [q]. *)
Definition builder_in (w : world) (qs b : nat) (q : obj) : Prop :=
  nth qs (heap w) CUninit = CVal (VObj q)
  /\ nth b (heap w) CUninit = CObject (clans_members qs b)
  /\ qs < List.length (heap w) /\ b < List.length (heap w) /\ qs <> b.

(** [client.clans().withF1(v1)...withFn(vn).fetch()]. *)
Definition setters (l : list (string * value)) : list (string * list value) :=
  map (fun fv => (setter_name (fst fv), [snd fv])) l.

Definition clans_chain (l : list (string * value)) : chain :=
  {| first := Mclans; first_args := [];
     rest := setters l ++ [("fetch", [])] |}.

(** The mapping after the writes [l], first to last. *)
Definition recorded (l : list (string * value)) (q : obj) : obj :=
  fold_left (fun q fv => set (fst fv) (snd fv) q) l q.

(** A computation preserves a property of the client and of the requests
    sent so far. *)
Definition preserves (I : ClashApi -> list value -> Prop) {A : Type} (m : M A) : Prop :=
  forall w, I (self w) (sent w) -> I (self (snd (m w))) (sent (snd (m w))).

(** The value the last write to [field] in [l] gave it, if [l] writes it. *)
Definition last_write (field : string) (l : list (string * value)) : option value :=
  fold_left
    (fun acc fv => if String.eqb field (fst fv) then Some (snd fv) else acc)
    l None.

(** The path each method that takes a tag asks for, given the tag as it
    is put into the path. *)
Definition tag_path (m : method) (t : string) : option string :=
  match m with
  | MclanByTag => Some ("/clans/" ++ t)%string
  | MclanMembersByTag => Some ("/clans/" ++ t ++ "/members")%string
  | MclanWarlogByTag => Some ("/clans/" ++ t ++ "/warlog")%string
  | MclanCurrentWarByTag => Some ("/clans/" ++ t ++ "/currentwar")%string
  | MclanLeague => Some ("/clans/" ++ t ++ "/currentwar/leaguegroup")%string
  | MclanLeagueWars => Some ("/clanwarleagues/wars/" ++ t)%string
  | MplayerByTag => Some ("/players/" ++ t)%string
  | Mclans | Mlocations | Mleagues => None
  end.


(** [client.locations().withId(L).name1()...]. *)
Definition location_chain (L : value) (l : list string) : chain :=
  {| first := Mlocations; first_args := [];
     rest := ("withId", [L]) :: map (fun name => (name, [])) l |}.

(** How often a character occurs in a string. *)
Fixpoint count_char (c : ascii) (s : string) : nat :=
  match s with
  | EmptyString => 0
  | String c' s' => (if Ascii.eqb c c' then 1 else 0) + count_char c s'
  end.

(** A computation hands nothing to the transport; a computation hands it
    at most one request, and then returns the promise of it. *)
Definition quiet {A : Type} (m : M A) : Prop :=
  forall w, sent (snd (m w)) = sent w.

Definition one_shot (m : M jsref) : Prop :=
  forall w,
    sent (snd (m w)) = sent w
    \/ exists o n, fst (m w) = Return (RPromise n) /\ sent (snd (m w)) = sent w ++ [o].

(** The path a chain asks for when its first call is one of the methods
    that fetch directly, and the request such a method builds. *)
Definition direct_path (c : chain) : option string :=
  match first c with
  | Mleagues => Some "/leagues"
  | m => tag_path m (encodeURIComponent (arg 0 (first_args c)))
  end.

Definition direct_request (c : ClashApi) (path : string) : value :=
  VObj (requestOptions c (VObj [("uri", VStr (to_string (uri c) ++ path))])).

(** The names under which the builder of [clans] has a function, and the
    request its [fetch] builds from the mapping [q]. *)
Definition clans_method_names : list string :=
  "fetch" :: map setter_name clans_fields.

Definition clans_request (c : ClashApi) (q : obj) : value :=
  VObj (requestOptions c
          (VObj [ ("qs", VObj q);
                  ("uri", VStr (to_string (uri c) ++ "/clans")) ])).

(** The functions that hand a request to the transport, and the heaps in
    which such a function is found under the name [fetch] only. *)
Definition sends (f : closure) : bool :=
  match f with
  | ClansFetch _ | LocationsFetch | RankingFetch _ _ => true
  | _ => false
  end.

Definition members_ok (members : list (string * closure)) : Prop :=
  forall name f, In (name, f) members -> sends f = true -> name = "fetch".

Definition cell_ok (c : cell) : Prop :=
  match c with
  | CObject members => members_ok members
  | _ => True
  end.

Definition heap_ok (h : list cell) : Prop := Forall cell_ok h.

(** A computation leaves the heap such a heap. *)
Definition hkeeps {A : Type} (m : M A) : Prop :=
  forall w, heap_ok (heap w) -> heap_ok (heap (snd (m w))).

(** A chain in which nothing is called under the name [fetch]. *)
Definition no_fetch (l : list (string * list value)) : Prop :=
  Forall (fun na => fst na <> "fetch") l.

(** A string that starts with a lower-case letter of the alphabet. *)
Definition starts_lower (s : string) : bool :=
  match s with
  | EmptyString => false
  | String c _ => is_lower c
  end.

(** A request carries the token [t]: its options have the header
    authorization with the value "Bearer t", which is its Authorization
    header. *)
Definition carries (t : string) (options : value) : Prop :=
  get_path ["headers"; "authorization"] options = Some (VStr ("Bearer " ++ t))
  /\ header "Authorization" options = Some (VStr ("Bearer " ++ t)).

End Spec.

(** * Properties *)

(** ** Objects *)

Module ObjFacts.
Import Js.

Section GetSet.
Context {A : Type}.
Implicit Types (o : list (string * A)) (k : string) (v : A).

Lemma get_set_same k v o : get k (set k v o) = Some v.
Proof.
  induction o as [|[k' v'] o IH]; simpl.
  - now rewrite String.eqb_refl.
  - destruct (String.eqb k k') eqn:E; simpl; rewrite E; auto.
Qed.

Lemma get_set_other k k' v o : k <> k' -> get k (set k' v o) = get k o.
Proof.
  intros Hne. induction o as [|[k2 v2] o IH]; simpl.
  - destruct (String.eqb k k') eqn:E; auto.
    apply String.eqb_eq in E. contradiction.
  - destruct (String.eqb k' k2) eqn:E; simpl.
    + apply String.eqb_eq in E. subst k2.
      destruct (String.eqb k k') eqn:E'; auto.
      apply String.eqb_eq in E'. contradiction.
    + now rewrite IH.
Qed.

Lemma set_set k v v' o : set k v' (set k v o) = set k v' o.
Proof.
  induction o as [|[k2 v2] o IH]; simpl.
  - now rewrite String.eqb_refl.
  - destruct (String.eqb k k2) eqn:E; simpl; rewrite E; auto.
    now rewrite IH.
Qed.

Lemma get_none_not_in k o :
  get k o = None <-> existsb (String.eqb k) (map fst o) = false.
Proof.
  induction o as [|[k2 v2] o IH]; simpl; [tauto|].
  destruct (String.eqb k k2); simpl; [split; discriminate|exact IH].
Qed.
End GetSet.

End ObjFacts.

(** ** lodash's merge, property by property *)

Module MergeFacts.
Import Js Lodash Spec ObjFacts.

Lemma mergedValue_obj objValue source :
  mergedValue objValue (VObj source)
  = VObj (baseMerge (match objValue with Some (VObj o) => o | _ => [] end) source).
Proof. reflexivity. Qed.

Lemma baseMerge_nil object : baseMerge object [] = object.
Proof. reflexivity. Qed.

Lemma baseMerge_cons object k v source :
  baseMerge object ((k, v) :: source)
  = baseMerge (assignMergeValue object k (mergedValue (get k object) v)) source.
Proof. reflexivity. Qed.

Lemma get_assignMergeValue_same object k srcValue :
  get k (assignMergeValue object k (mergedValue (get k object) srcValue))
  = merged_at (get k object) srcValue.
Proof.
  destruct srcValue as [x|source].
  - destruct x; simpl; try apply get_set_same.
    unfold has. destruct (get k object) eqn:E; auto.
    apply get_set_same.
  - rewrite mergedValue_obj. simpl. apply get_set_same.
Qed.

Lemma get_assignMergeValue_other object k k' v :
  k <> k' -> get k (assignMergeValue object k' v) = get k object.
Proof.
  intros Hne. unfold assignMergeValue.
  destruct v as [x|source]; [destruct x|];
    try (now apply get_set_other).
  destruct (has k' object); auto. now apply get_set_other.
Qed.

(** What a merge leaves under each property. *)
Lemma get_baseMerge k source : forall object,
  keys_distinct (map fst source) = true ->
  get k (baseMerge object source)
  = match get k source with
    | None => get k object
    | Some srcValue => merged_at (get k object) srcValue
    end.
Proof.
  induction source as [|[k1 v1] source IH]; intros object Hd; auto.
  rewrite baseMerge_cons. simpl in Hd. apply andb_prop in Hd.
  destruct Hd as [Hfresh Hd]. apply negb_true_iff in Hfresh.
  rewrite (IH _ Hd). simpl.
  destruct (String.eqb k k1) eqn:E.
  - apply String.eqb_eq in E. subst k1.
    apply get_none_not_in in Hfresh. rewrite Hfresh.
    apply get_assignMergeValue_same.
  - apply String.eqb_neq in E.
    now rewrite (get_assignMergeValue_other _ _ _ _ E).
Qed.

Lemma wf_obj props :
  wf (VObj props) = true ->
  keys_distinct (map fst props) = true
  /\ forall k v, get k props = Some v -> wf v = true.
Proof.
  simpl. intros H. apply andb_prop in H. destruct H as [Hd Hall].
  split; auto. clear Hd.
  induction props as [|[k1 v1] props IH]; simpl; intros k v; try discriminate.
  apply andb_prop in Hall. destruct Hall as [H1 Hall].
  destruct (String.eqb k k1).
  - intros [= <-]. exact H1.
  - now apply IH.
Qed.

(** A source wins on the paths it sets. *)
Lemma source_wins p x : forall source object,
  wf (VObj source) = true ->
  x <> PUndef ->
  get_path p (VObj source) = Some (VPrim x) ->
  get_path p (VObj (baseMerge object source)) = Some (VPrim x).
Proof.
  induction p as [|k p IH]; intros source object Hwf Hx Hp; [discriminate|].
  apply wf_obj in Hwf. destruct Hwf as [Hd Hsub].
  simpl in *. rewrite (get_baseMerge _ _ _ Hd).
  destruct (get k source) as [v|] eqn:Ek; [|discriminate].
  destruct v as [y|source'].
  - destruct p; simpl in Hp; [|discriminate].
    injection Hp as ->. destruct x; try contradiction; reflexivity.
  - unfold merged_at. rewrite mergedValue_obj.
    apply IH; auto. apply (Hsub _ _ Ek).
Qed.

(** A source that leaves a path alone leaves there what there was. *)
Lemma source_silent p v : forall source object,
  wf (VObj source) = true ->
  leaves_alone p source = true ->
  get_path p (VObj object) = Some v ->
  get_path p (VObj (baseMerge object source)) = Some v.
Proof.
  induction p as [|k p IH]; intros source object Hwf Hs Hp; [discriminate|].
  apply wf_obj in Hwf. destruct Hwf as [Hd Hsub].
  simpl in *. rewrite (get_baseMerge _ _ _ Hd).
  destruct (get k object) as [ov|] eqn:Eo; [|discriminate].
  destruct (get k source) as [sv|] eqn:Ek; [|exact Hp].
  destruct sv as [y|source'].
  - destruct y; try discriminate. exact Hp.
  - unfold merged_at. rewrite mergedValue_obj.
    destruct p as [|k' p]; [discriminate|].
    destruct ov as [y|o]; [discriminate|].
    apply (IH source' o); auto. apply (Hsub _ _ Ek).
Qed.

(** ... and where there was nothing, nothing truthy appears. *)
Lemma source_silent_none k source object :
  wf (VObj source) = true ->
  leaves_alone [k] source = true ->
  get k object = None ->
  get k (baseMerge object source) = None
  \/ get k (baseMerge object source) = Some undefined.
Proof.
  intros Hwf Hs Ho. apply wf_obj in Hwf. destruct Hwf as [Hd _].
  rewrite (get_baseMerge _ _ _ Hd). simpl in Hs. rewrite Ho.
  destruct (get k source) as [[y|source']|]; auto; try discriminate.
  destruct y; try discriminate. now right.
Qed.

(** A falsy source has nothing [merge] could walk. *)
Lemma falsy_no_props source : truthy source = false -> own_props source = [].
Proof.
  destruct source as [x|o]; [|discriminate].
  destruct x; auto. simpl. destruct s; [auto|discriminate].
Qed.

Lemma merge_two object s1 s2 :
  merge object [s1; s2]
  = baseMerge (baseMerge object (own_props s1)) (own_props s2).
Proof.
  unfold merge. simpl.
  destruct (truthy s1) eqn:E1; destruct (truthy s2) eqn:E2;
    try rewrite (falsy_no_props _ E1); try rewrite (falsy_no_props _ E2);
    reflexivity.
Qed.

End MergeFacts.

(** ** Construction *)

Module Construction.
Import Js Lodash Index Spec ObjFacts MergeFacts.

Lemma constructor_cases e arg :
  let t := or_else (passed_token arg) (env_COC_API_TOKEN e) in
  (truthy t = false /\ constructor e arg = Throw (Error no_token_message))
  \/ (truthy t = true /\ exists c, constructor e arg = Return c /\ token c = t).
Proof.
  assert (H : passed_token arg
              = destructure "token" (match arg with Some o => o | None => [] end))
    by (destruct arg; reflexivity).
  unfold constructor. rewrite H. cbn [token]. cbv zeta.
  destruct (truthy (or_else _ (env_COC_API_TOKEN e))) eqn:E; simpl; eauto.
Qed.

Lemma or_else_falsy a b : truthy a = false -> or_else a b = b.
Proof. unfold or_else. now intros ->. Qed.

Lemma destructure_set_same k v cfg : destructure k (set k v cfg) = v.
Proof. unfold destructure. now rewrite get_set_same. Qed.

Lemma destructure_set_other k k' v cfg :
  k <> k' -> destructure k (set k' v cfg) = destructure k cfg.
Proof. intros H. unfold destructure. now rewrite get_set_other. Qed.

Lemma truthy_or_else a b :
  truthy (or_else a b) = truthy a || truthy b.
Proof. unfold or_else. destruct (truthy a) eqn:E; simpl; auto. Qed.

Lemma token_given_iff arg : token_given arg <-> truthy (passed_token arg) = true.
Proof.
  unfold token_given, passed_token, destructure. split.
  - intros (cfg & v & -> & Hg & Hv). now rewrite Hg.
  - destruct arg as [cfg|]; [|discriminate].
    destruct (get "token" cfg) as [v|] eqn:E; [|discriminate]. eauto.
Qed.

Lemma env_gives_iff e : env_gives e <-> truthy (env_COC_API_TOKEN e) = true.
Proof.
  unfold env_gives, env_COC_API_TOKEN. split.
  - intros (t & -> & Ht). simpl. apply negb_true_iff. now apply String.eqb_neq.
  - destruct (COC_API_TOKEN e) as [t|]; [|discriminate].
    simpl. intros H. apply negb_true_iff, String.eqb_neq in H. eauto.
Qed.

(** C3. Constructing a client throws, and produces no client, exactly
    when no token is resolvable: the configuration has no truthy value
    under token and the environment variable COC_API_TOKEN is unset or
    empty.  It succeeds exactly when one of the two gives a token: a
    token that is passed is the token of the client, and otherwise the
    one of the environment is.  The error thrown is the one that asks for
    a token, and the exported factory constructs in the same way. *)
Theorem constructor_throws_iff_no_token (e : environment) (arg : option obj) :
  ((exists err, constructor e arg = Throw err)
   <-> ~ token_given arg /\ ~ env_gives e)
  /\ ((exists c, constructor e arg = Return c)
      <-> token_given arg \/ env_gives e)
  /\ (forall err, constructor e arg = Throw err -> err = Error no_token_message)
  /\ (forall cfg v, arg = Some cfg -> get "token" cfg = Some v -> truthy v = true ->
      exists c, constructor e arg = Return c /\ token c = v)
  /\ (forall t, ~ token_given arg -> COC_API_TOKEN e = Some t -> t <> "" ->
      exists c, constructor e arg = Return c /\ token c = VStr t)
  /\ factory e arg = constructor e arg.
Proof.
  rewrite token_given_iff, env_gives_iff.
  destruct (constructor_cases e arg) as [[Ht Hc]|[Ht [c [Hc Htok]]]];
    rewrite truthy_or_else in Ht; rewrite Hc.
  - apply orb_false_iff in Ht. destruct Ht as [H1 H2]. rewrite H1, H2.
    split; [|split; [|split; [|split; [|split]]]]; auto.
    + split; [intros _; split; discriminate | eauto].
    + split; [intros [c H]; discriminate | intros [H|H]; discriminate].
    + intros err H. now injection H as <-.
    + intros cfg v -> Hg Hv. unfold passed_token, destructure in H1.
      rewrite Hg in H1. congruence.
    + intros t _ He Hne. unfold env_COC_API_TOKEN in H2. rewrite He in H2.
      simpl in H2. apply negb_false_iff, String.eqb_eq in H2. contradiction.
  - apply orb_true_iff in Ht.
    split; [|split; [|split; [|split; [|split]]]]; auto.
    + split; [intros [err H]; discriminate | tauto].
    + split; eauto.
    + intros err H. discriminate.
    + intros cfg v -> Hg Hv. exists c. split; auto. rewrite Htok.
      unfold passed_token, destructure. rewrite Hg. unfold or_else. now rewrite Hv.
    + intros t Hn He Hne. exists c. split; auto. rewrite Htok.
      rewrite token_given_iff in Hn. apply not_true_is_false in Hn.
      rewrite (or_else_falsy _ _ Hn). unfold env_COC_API_TOKEN. now rewrite He.
Qed.

Lemma constructor_throws_iff_no_token_witness :
  (exists err,
     constructor {| COC_API_TOKEN := None; config_uri := VStr "https://api" |} None
     = Throw err)
  /\ (exists c,
        constructor {| COC_API_TOKEN := None; config_uri := VStr "https://api" |}
          (Some [("token", VStr "abc")]) = Return c
        /\ token c = VStr "abc")
  /\ (exists c,
        constructor {| COC_API_TOKEN := Some "secret"; config_uri := VStr "https://api" |}
          None = Return c
        /\ token c = VStr "secret").
Proof.
  split; [|split].
  - apply (proj1 (constructor_throws_iff_no_token
                    {| COC_API_TOKEN := None; config_uri := VStr "https://api" |} None)).
    split.
    + intros (cfg & v & H & _). discriminate.
    + intros (t & H & _). discriminate.
  - apply (proj1 (proj2 (proj2 (proj2 (constructor_throws_iff_no_token
                    {| COC_API_TOKEN := None; config_uri := VStr "https://api" |}
                    (Some [("token", VStr "abc")])))))
             [("token", VStr "abc")] (VStr "abc") eq_refl eq_refl eq_refl).
  - apply (proj1 (proj2 (proj2 (proj2 (proj2 (constructor_throws_iff_no_token
                    {| COC_API_TOKEN := Some "secret"; config_uri := VStr "https://api" |}
                    None)))))
             "secret").
    + intros (cfg & v & H & _). discriminate.
    + reflexivity.
    + discriminate.
Defined.

(** C10. A token that is passed but falsy (the empty string, [undefined],
    [null], [false], [0]) counts as no token: with the environment
    variable set to a token the construction succeeds and the client uses
    that token, with the variable unset it throws the error that asks for
    a token, and in both cases it does what it does for a configuration
    whose token is [undefined]. *)
Theorem falsy_token_is_no_token (e : environment) (cfg : obj) :
  truthy (destructure "token" cfg) = false ->
  (forall t, COC_API_TOKEN e = Some t -> t <> "" ->
     exists c, constructor e (Some cfg) = Return c /\ token c = VStr t)
  /\ (COC_API_TOKEN e = None ->
      constructor e (Some cfg) = Throw (Error no_token_message))
  /\ constructor e (Some cfg) = constructor e (Some (set "token" undefined cfg)).
Proof.
  intros Hf. repeat split.
  - intros t Ht Hne. unfold constructor, env_COC_API_TOKEN, or_else at 1. simpl.
    rewrite Hf, Ht. simpl.
    destruct (String.eqb t "") eqn:E; [apply String.eqb_eq in E; contradiction|].
    simpl. eexists. split; [reflexivity|].
    simpl. unfold or_else. now rewrite Hf.
  - intros Ht. unfold constructor, env_COC_API_TOKEN, or_else at 1. simpl.
    now rewrite Hf, Ht.
  - unfold constructor. cbv zeta. cbn [token].
    rewrite destructure_set_same.
    rewrite !(destructure_set_other _ "token") by discriminate.
    rewrite (or_else_falsy _ _ Hf). reflexivity.
Qed.

Lemma falsy_token_is_no_token_witness :
  (exists c, constructor {| COC_API_TOKEN := Some "secret"; config_uri := VStr "https://api" |}
               (Some [("token", VStr "")]) = Return c
             /\ token c = VStr "secret")
  /\ constructor {| COC_API_TOKEN := None; config_uri := VStr "https://api" |}
       (Some [("token", VStr "")]) = Throw (Error no_token_message).
Proof.
  split.
  - apply (proj1 (falsy_token_is_no_token
                    {| COC_API_TOKEN := Some "secret"; config_uri := VStr "https://api" |}
                    [("token", VStr "")] eq_refl) "secret" eq_refl).
    discriminate.
  - apply (proj1 (proj2 (falsy_token_is_no_token
                           {| COC_API_TOKEN := None; config_uri := VStr "https://api" |}
                           [("token", VStr "")] eq_refl)) eq_refl).
Defined.

End Construction.

(** ** The options of a request *)

Module Options.
Import Js Lodash Index Spec ObjFacts MergeFacts Construction.

Lemma requestOptions_unfold c opts :
  requestOptions c opts
  = baseMerge (baseMerge (base_template c) (own_props opts))
      (own_props (_requestDefaults c)).
Proof. apply merge_two. Qed.

Lemma defaults_win c opts p x :
  well_formed (_requestDefaults c) ->
  sets (_requestDefaults c) p x ->
  get_path p (VObj (requestOptions c opts)) = Some (VPrim x).
Proof.
  intros Hwf [Hx Hp]. rewrite requestOptions_unfold.
  now apply source_wins.
Qed.

Lemma opts_win c opts p x :
  well_formed (_requestDefaults c) -> well_formed opts ->
  silent (_requestDefaults c) p ->
  sets opts p x ->
  get_path p (VObj (requestOptions c opts)) = Some (VPrim x).
Proof.
  intros Hwf Hwf' Hs [Hx Hp]. rewrite requestOptions_unfold.
  apply source_silent; auto. now apply source_wins.
Qed.

Lemma base_stays c opts p v :
  well_formed (_requestDefaults c) -> well_formed opts ->
  silent (_requestDefaults c) p -> silent opts p ->
  get_path p (VObj (base_template c)) = Some v ->
  get_path p (VObj (requestOptions c opts)) = Some v.
Proof.
  intros Hwf Hwf' Hs Hs' Hp. rewrite requestOptions_unfold.
  apply source_silent; auto. now apply source_silent.
Qed.

(** C1. [requestOptions] returns the deep merge of the base template
    (the headers Accept and authorization, the latter "Bearer " and the
    token, and the flag json), of the options of the call and of the
    defaults given at construction, each merged over the ones before it.
    For every path of property names: a primitive value the defaults set
    there is the value of the result; where the defaults leave the path
    alone, a value the options of the call set is the value of the result;
    and where both leave it alone, the value of the base template stays.
    (A property whose value is [undefined] counts as not set, and the
    objects are taken with each property once.) *)
Theorem requestOptions_precedence (c : ClashApi) (opts : value) :
  requestOptions c opts
  = baseMerge
      (baseMerge
         [ ("headers",
            VObj [ ("Accept", VStr "application/json");
                   ("authorization", VStr ("Bearer " ++ to_string (token c))) ]);
           ("json", VBool true) ]
         (own_props opts))
      (own_props (_requestDefaults c))
  /\ (well_formed (_requestDefaults c) -> well_formed opts ->
      forall p x,
        (sets (_requestDefaults c) p x ->
         get_path p (VObj (requestOptions c opts)) = Some (VPrim x))
        /\ (silent (_requestDefaults c) p -> sets opts p x ->
            get_path p (VObj (requestOptions c opts)) = Some (VPrim x))
        /\ (silent (_requestDefaults c) p -> silent opts p ->
            sets (VObj (base_template c)) p x ->
            get_path p (VObj (requestOptions c opts)) = Some (VPrim x))).
Proof.
  split; [apply requestOptions_unfold|].
  intros Hwf Hwf' p x. repeat split.
  - now apply defaults_win.
  - now apply opts_win.
  - intros Hs Hs' [_ Hp]. now apply base_stays.
Qed.

Lemma requestOptions_precedence_witness :
  let c := {| token := VStr "t"; uri := VStr "https://api";
              _requestDefaults :=
                VObj [("headers", VObj [("authorization", VStr "Bearer d")])] |} in
  let opts := VObj [ ("headers", VObj [("authorization", VStr "Bearer o");
                                       ("Accept", VStr "text/plain")]);
                     ("uri", VStr "https://api/leagues") ] in
  get_path ["headers"; "authorization"] (VObj (requestOptions c opts))
  = Some (VStr "Bearer d")
  /\ get_path ["headers"; "Accept"] (VObj (requestOptions c opts))
     = Some (VStr "text/plain")
  /\ get_path ["json"] (VObj (requestOptions c opts)) = Some (VBool true).
Proof.
  intros c opts.
  pose proof (proj2 (requestOptions_precedence c opts) eq_refl eq_refl) as H.
  split; [|split].
  - apply (proj1 (H ["headers"; "authorization"] (PStr "Bearer d"))).
    split; [discriminate|reflexivity].
  - apply (proj1 (proj2 (H ["headers"; "Accept"] (PStr "text/plain")))).
    + reflexivity.
    + split; [discriminate|reflexivity].
  - apply (proj2 (proj2 (H ["json"] (PBool true)))).
    + reflexivity.
    + reflexivity.
    + split; [discriminate|reflexivity].
Defined.

(** The configuration field the constructor reads is [request]: what is
    passed as [requestDefaults] reaches neither the client nor its
    requests. *)
Lemma requestDefaults_field_is_not_read :
  let e := {| COC_API_TOKEN := None; config_uri := VStr "https://api" |} in
  let given := VObj [("json", VBool false)] in
  let cfg := [("token", VStr "t"); ("requestDefaults", given)] in
  exists c,
    constructor e (Some cfg) = Return c
    /\ _requestDefaults c <> given
    /\ _requestDefaults c = VObj []
    /\ sets given ["json"] (PBool false)
    /\ get_path ["json"] (VObj (requestOptions c (VObj []))) = Some (VBool true).
Proof.
  simpl. eexists. split; [reflexivity|].
  repeat split; discriminate.
Qed.

(** C8, as the code has it. The constructor takes an optional
    configuration object and reads its fields uri, token and request
    (a missing configuration is an empty one, and a field named
    requestDefaults is not read).  The value under request, when it is
    truthy, becomes the defaults of the client, which are merged last, so
    above the base template and the options of the call, into the options
    of every request: whatever primitive value the defaults set at a path
    is the value there in the result of [requestOptions]. *)
Theorem request_field_becomes_the_defaults
    (e : environment) (cfg : obj) (c : ClashApi) :
  constructor e (Some cfg) = Return c ->
  token c = or_else (destructure "token" cfg) (env_COC_API_TOKEN e)
  /\ uri c = or_else (destructure "uri" cfg) (config_uri e)
  /\ _requestDefaults c = or_else (destructure "request" cfg) (VObj [])
  /\ (forall d, get "request" cfg = Some d -> truthy d = true ->
      _requestDefaults c = d
      /\ forall opts,
           requestOptions c opts = merge (base_template c) [opts; d]
           /\ forall p x, well_formed d -> sets d p x ->
                get_path p (VObj (requestOptions c opts)) = Some (VPrim x))
  /\ (forall v, constructor e (Some (set "requestDefaults" v cfg))
                = constructor e (Some cfg))
  /\ (cfg = [] -> constructor e None = Return c).
Proof.
  intros Hc.
  assert (Hfields :
            token c = or_else (destructure "token" cfg) (env_COC_API_TOKEN e)
            /\ uri c = or_else (destructure "uri" cfg) (config_uri e)
            /\ _requestDefaults c = or_else (destructure "request" cfg) (VObj [])).
  { unfold constructor in Hc. cbv zeta in Hc. cbn [token] in Hc.
    destruct (negb _); [discriminate|]. injection Hc as <-. auto. }
  destruct Hfields as [Ht [Hu Hd]].
  split; [|split; [|split; [|split; [|split]]]]; auto.
  - intros d Hget Htr.
    assert (Hd' : _requestDefaults c = d).
    { rewrite Hd. unfold destructure. rewrite Hget. unfold or_else. now rewrite Htr. }
    split; auto. intros opts. split.
    + unfold requestOptions. now rewrite Hd'.
    + intros p x Hwf Hs. apply defaults_win; now rewrite Hd'.
  - intros v. unfold constructor. cbv zeta. cbn [token].
    now rewrite !(destructure_set_other _ "requestDefaults") by discriminate.
  - intros ->. exact Hc.
Qed.

Lemma request_field_becomes_the_defaults_witness :
  let e := {| COC_API_TOKEN := None; config_uri := VStr "https://api" |} in
  let d := VObj [("json", VBool false)] in
  let c := {| token := VStr "t"; uri := VStr "https://api"; _requestDefaults := d |} in
  constructor e (Some [("token", VStr "t"); ("request", d)]) = Return c
  /\ get_path ["json"] (VObj (requestOptions c (VObj []))) = Some (VBool false).
Proof.
  intros e d c. split; [reflexivity|].
  apply (proj2 (proj1 (proj2 (proj2 (proj2
           (request_field_becomes_the_defaults e
              [("token", VStr "t"); ("request", d)] c eq_refl))))
           d eq_refl eq_refl) (VObj [])).
  - reflexivity.
  - split; [discriminate|reflexivity].
Defined.

End Options.

(** ** What every call keeps *)

Module Frame.
Import Js Lodash Index Spec ObjFacts MergeFacts Options.

(** The methods merge into a literal: what they hand to the transport is
    what [requestOptions] returns, and the client is as it was. *)
Lemma this_requestOptions_eval opts w :
  this_requestOptions opts w = (Return (requestOptions (self w) opts), w).
Proof. reflexivity. Qed.

Lemma fetch_uri_eval path w :
  fetch_uri path w
  = request (requestOptions (self w)
               (VObj [("uri", VStr (to_string (uri (self w)) ++ path))])) w.
Proof. reflexivity. Qed.

Lemma clans_fetch_eval q w :
  (c <- this ;;
   options <- this_requestOptions
                (VObj [ ("qs", q); ("uri", VStr (to_string (uri c) ++ "/clans")) ]) ;;
   request options) w
  = request (requestOptions (self w)
               (VObj [ ("qs", q);
                       ("uri", VStr (to_string (uri (self w)) ++ "/clans")) ])) w.
Proof. reflexivity. Qed.

Create HintDb keeps.

Section Keeps.
(** A property of the client and of the requests sent so far that a
    request built by [requestOptions] from per-call options keeps. *)
Variable I : ClashApi -> list value -> Prop.
Hypothesis I_request :
  forall c s opts, per_call opts -> I c s -> I c (s ++ [VObj (requestOptions c opts)]).

Local Abbreviation keeps := (preserves I).

Lemma keeps_ret {A} (a : A) : keeps (ret a).
Proof. now intros w H. Qed.

Lemma keeps_throw {A} e : keeps (@throw A e).
Proof. now intros w H. Qed.

Lemma keeps_bind {A B} (m : M A) (f : A -> M B) :
  keeps m -> (forall a, keeps (f a)) -> keeps (bind m f).
Proof.
  intros Hm Hf w H. unfold bind. specialize (Hm w H).
  destruct (m w) as [[a|e] w']; simpl in *; auto. now apply Hf.
Qed.

Lemma keeps_this : keeps this.
Proof. now intros w H. Qed.

Lemma keeps_alloc c : keeps (alloc c).
Proof. now intros w H. Qed.

Lemma keeps_read a : keeps (read a).
Proof. now intros w H. Qed.

Lemma keeps_write a c : keeps (write a c).
Proof. now intros w H. Qed.

#[local] Hint Resolve keeps_ret keeps_throw keeps_this keeps_alloc keeps_read keeps_write : keeps.

Ltac keeps_step :=
  repeat first
    [ solve [auto with keeps]
    | apply keeps_bind; [|intros ?]
    | match goal with
      | |- keeps (match ?x with _ => _ end) => destruct x
      | |- keeps (if ?x then _ else _) => destruct x
      end ].

Lemma keeps_read_var a : keeps (read_var a).
Proof. unfold read_var. keeps_step. Qed.

Lemma keeps_read_const name a : keeps (read_const name a).
Proof. unfold read_const. keeps_step. Qed.

Lemma keeps_define a name f : keeps (define a name f).
Proof. unfold define. keeps_step. Qed.

Lemma keeps_assign_property a field input : keeps (assign_property a field input).
Proof. unfold assign_property. keeps_step. Qed.

Lemma keeps_resolve scope name : keeps (resolve scope name).
Proof. unfold resolve. keeps_step. Qed.

Lemma keeps_reduce {A B} (f : B -> A -> M B) l :
  (forall b x, keeps (f b x)) -> forall init, keeps (reduce f l init).
Proof.
  intros Hf. induction l as [|x l IH]; intros init; simpl.
  - apply keeps_ret.
  - apply keeps_bind; auto.
Qed.

Lemma keeps_fetch_uri path : keeps (fetch_uri path).
Proof.
  intros w H. rewrite fetch_uri_eval. unfold request. simpl.
  apply I_request; auto. constructor.
Qed.

#[local] Hint Resolve keeps_read_var keeps_read_const keeps_define keeps_assign_property
  keeps_resolve keeps_fetch_uri : keeps.

Lemma keeps_clans : keeps clans.
Proof. unfold clans. keeps_step. Qed.

Lemma keeps_assign object source : keeps (assign object source).
Proof.
  unfold assign. keeps_step. apply keeps_reduce. intros b x. keeps_step.
Qed.

#[local] Hint Resolve keeps_clans keeps_assign : keeps.

Lemma keeps_withId_in scope locId : keeps (withId_in scope locId).
Proof. unfold withId_in. keeps_step. Qed.

Lemma keeps_locations : keeps locations.
Proof. unfold locations. keeps_step. Qed.

#[local] Hint Resolve keeps_withId_in keeps_locations : keeps.

Lemma keeps_call f args : keeps (call f args).
Proof.
  destruct f; simpl.
  - apply keeps_bind; [auto with keeps|]. intros q w H.
    rewrite clans_fetch_eval. unfold request. simpl.
    apply I_request; auto. constructor.
  - keeps_step.
  - keeps_step.
  - apply keeps_withId_in.
  - keeps_step.
  - keeps_step.
  - keeps_step.
  - keeps_step.
Qed.

Lemma keeps_inherited a name :
  keeps (match inherited a name with
         | Some m => m
         | None => throw (NotAFunction name)
         end).
Proof.
  unfold inherited.
  repeat match goal with
         | |- context [if ?b then _ else _] => destruct b
         end; auto with keeps.
Qed.

Lemma keeps_invoke a name args : keeps (invoke a name args).
Proof.
  unfold invoke. apply keeps_bind; [auto with keeps|]. intros c.
  destruct c; auto with keeps.
  destruct (get name members); [apply keeps_call|apply keeps_inherited].
Qed.

Lemma keeps_call_method m args : keeps (call_method m args).
Proof.
  destruct m; simpl;
    unfold clanByTag, clanMembersByTag, clanWarlogByTag, clanCurrentWarByTag,
      clanLeague, clanLeagueWars, leagues, playerByTag;
    auto with keeps.
Qed.

Lemma keeps_links l : forall r, keeps (links r l).
Proof.
  induction l as [|[name args] l IH]; intros r; simpl.
  - apply keeps_ret.
  - destruct r; try apply keeps_ret.
    apply keeps_bind; auto. apply keeps_invoke.
Qed.

Lemma keeps_run_chain c : keeps (run_chain c).
Proof.
  unfold run_chain. apply keeps_bind.
  - apply keeps_call_method.
  - intros r. apply keeps_links.
Qed.

Lemma run_all_keeps cs : forall w,
  I (self w) (sent w) -> I (self (run_all cs w)) (sent (run_all cs w)).
Proof.
  induction cs as [|c cs IH]; intros w H; simpl; auto.
  apply IH. now apply keeps_run_chain.
Qed.
End Keeps.

End Frame.

(** ** The client and its requests over any run *)

Module Runs.
Import Js Lodash Index Spec ObjFacts MergeFacts Construction Options Frame.

(** A merge into a field of the client writes the client: had
    [requestOptions] merged into [this._requestDefaults], a call would
    have left other defaults behind. *)
Lemma merge_into_a_field_writes_it :
  let c := {| token := VStr "t"; uri := VStr "https://api";
              _requestDefaults := VObj [] |} in
  let w := snd (merge_into (Field F_requestDefaults)
                  [VObj [("uri", VStr "https://api/leagues")]] (fresh c)) in
  _requestDefaults (self w) = VObj [("uri", VStr "https://api/leagues")]
  /\ self w <> c.
Proof. split; [reflexivity|discriminate]. Qed.

(** C9. The configuration of the client (token, uri and default request
    options) is set by the constructor and by nothing else.  The client
    can be written, and lodash's merge writes the object it merges into;
    [requestOptions] merges into the literal of the base template, not
    into an object of the client, and no function of the module assigns
    to a field.  So after any sequence of chains of calls (direct
    fetches, builders, their setters and their fetches) run from any
    world, the three fields are what they were, and so they are after any
    single call of a method of the client, of a function of one of its
    builders, or of [requestOptions] as the methods call it. *)
Theorem configuration_is_immutable (w : world) (cs : list chain) :
  token (self (run_all cs w)) = token (self w)
  /\ uri (self (run_all cs w)) = uri (self w)
  /\ _requestDefaults (self (run_all cs w)) = _requestDefaults (self w)
  /\ (forall m args, self (snd (call_method m args w)) = self w)
  /\ (forall a name args, self (snd (invoke a name args w)) = self w)
  /\ (forall c, self (fresh c) = c)
  /\ (forall opts,
        this_requestOptions opts w = (Return (requestOptions (self w) opts), w))
  /\ (forall f o sources,
        field_value f (self w) = VObj o ->
        self (snd (merge_into (Field f) sources w))
        = with_field f (VObj (merge o sources)) (self w)).
Proof.
  assert (H : self (run_all cs w) = self w).
  { apply (run_all_keeps (fun c' _ => c' = self w)); auto. }
  rewrite H. repeat split.
  - intros m args. apply (keeps_call_method (fun c' _ => c' = self w)); auto.
  - intros a name args. apply (keeps_invoke (fun c' _ => c' = self w)); auto.
  - intros f o sources Hf. unfold merge_into, bind, this. simpl. now rewrite Hf.
Qed.

Lemma configuration_is_immutable_witness :
  let c := {| token := VStr "t"; uri := VStr "https://api";
              _requestDefaults := VObj [("timeout", VNum 5000)] |} in
  let w := snd (this_requestOptions (VObj [("uri", VStr "https://api/leagues")])
                  (fresh c)) in
  let w' := snd (merge_into (Field F_requestDefaults)
                   [VObj [("uri", VStr "https://api/leagues")]] (fresh c)) in
  self w = c
  /\ _requestDefaults (self w')
     = VObj [("timeout", VNum 5000); ("uri", VStr "https://api/leagues")].
Proof.
  intros c w w'.
  pose proof (configuration_is_immutable (fresh c) []) as H.
  destruct H as (_ & _ & _ & _ & _ & _ & Hr & Hm).
  split.
  - unfold w. now rewrite Hr.
  - unfold w'. now rewrite (Hm F_requestDefaults _ _ eq_refl).
Defined.

Lemma per_call_carries c opts :
  _requestDefaults c = VObj [] ->
  per_call opts ->
  carries (to_string (token c)) (VObj (requestOptions c opts)).
Proof.
  intros Hd Hp. rewrite requestOptions_unfold, Hd. simpl own_props.
  rewrite baseMerge_nil.
  destruct Hp as [u|q u].
  - split; reflexivity.
  - destruct q as [x|o]; [destruct x|]; split; reflexivity.
Qed.

(** C7. For a client that was constructed, with the token passed by the
    caller or with the one of the environment, and whose default request
    options are empty, every request that any sequence of calls issues
    has the header authorization (the HTTP header Authorization, header
    names being matched without regard to case) with the value "Bearer "
    followed by the token. *)
Theorem requests_carry_the_bearer_token
    (e : environment) (arg : option obj) (c : ClashApi) (cs : list chain) :
  constructor e arg = Return c ->
  _requestDefaults c = VObj [] ->
  token c = or_else (passed_token arg) (env_COC_API_TOKEN e)
  /\ (forall t, token c = VStr t -> to_string (token c) = t)
  /\ Forall (carries (to_string (token c))) (sent (run_all cs (fresh c))).
Proof.
  intros Hc Hd. split; [|split].
  - destruct (constructor_cases e arg) as [[_ H]|[_ [c' [H Ht]]]];
      rewrite Hc in H; [discriminate|].
    now injection H as <-.
  - now intros t ->.
  - pose (I := fun (c' : ClashApi) (s : list value) =>
                 c' = c /\ Forall (carries (to_string (token c))) s).
    assert (HI : I (self (run_all cs (fresh c))) (sent (run_all cs (fresh c)))).
    { apply run_all_keeps.
      - intros c' s opts Hp [-> Hs]. split; auto.
        apply Forall_app. split; auto.
        constructor; auto. now apply per_call_carries.
      - split; [reflexivity|constructor]. }
    apply HI.
Qed.

Lemma requests_carry_the_bearer_token_witness :
  let e := {| COC_API_TOKEN := Some "secret"; config_uri := VStr "https://api" |} in
  let c := {| token := VStr "secret"; uri := VStr "https://api";
              _requestDefaults := VObj [] |} in
  let cs := [ {| first := MclanByTag; first_args := [VStr "#ABC123"]; rest := [] |};
              {| first := Mclans; first_args := [];
                 rest := [("withName", [VStr "abc"]); ("fetch", [])] |} ] in
  Forall (carries "secret") (sent (run_all cs (fresh c)))
  /\ List.length (sent (run_all cs (fresh c))) = 2.
Proof.
  intros e c cs. split; [|reflexivity].
  apply (proj2 (proj2 (requests_carry_the_bearer_token e None c cs eq_refl eq_refl))).
Defined.

End Runs.

(** ** The heap *)

Module HeapFacts.
Import Js Index Spec.

Section Lists.
Context {A : Type}.
Implicit Types (l : list A) (x d : A).

Lemma length_replace_at n x l : List.length (replace_at n x l) = List.length l.
Proof.
  revert n. induction l as [|y l IH]; intros [|n]; simpl; auto.
Qed.

Lemma nth_replace_at_same n x l d :
  n < List.length l -> nth n (replace_at n x l) d = x.
Proof.
  revert n. induction l as [|y l IH]; intros [|n] H; simpl in *; try lia; auto.
  apply IH. lia.
Qed.

Lemma nth_replace_at_other n m x l d :
  n <> m -> nth n (replace_at m x l) d = nth n l d.
Proof.
  revert n m. induction l as [|y l IH]; intros [|n] [|m] H; simpl; auto;
    try contradiction.
Qed.

Lemma replace_at_twice n x y l :
  replace_at n x (replace_at n y l) = replace_at n x l.
Proof.
  revert n. induction l as [|z l IH]; intros [|n]; simpl; auto.
  now rewrite IH.
Qed.

Lemma replace_at_same n l d :
  n < List.length l -> replace_at n (nth n l d) l = l.
Proof.
  revert n. induction l as [|z l IH]; intros [|n] H; simpl in *; try lia; auto.
  rewrite IH; auto. lia.
Qed.

Lemma replace_at_last l x y : replace_at (List.length l) x (l ++ [y]) = l ++ [x].
Proof. induction l as [|z l IH]; simpl; auto. now rewrite IH. Qed.
End Lists.

Lemma define_eval w a name f members :
  nth a (heap w) CUninit = CObject members ->
  define a name f w
  = (Return tt, with_heap w (replace_at a (CObject (set name f members)) (heap w))).
Proof.
  intros H. unfold define, bind, read. simpl. now rewrite H.
Qed.

Lemma with_heap_same w : with_heap w (heap w) = w.
Proof. now destruct w. Qed.

End HeapFacts.

(** ** The clan-search builder *)

Module ClansFacts.
Import Js Lodash Builtins Index Spec ObjFacts MergeFacts Options HeapFacts.

Lemma reduce_define qs fields : forall members w init,
  nth init (heap w) CUninit = CObject members ->
  init < List.length (heap w) ->
  reduce
    (fun builder field =>
       define builder ("with" ++ capitalizeFirstLetter field)
         (ClansWith qs field builder) ;;;
       ret builder)
    fields init w
  = (Return init,
     with_heap w
       (replace_at init
          (CObject
             (fold_left
                (fun members field =>
                   set (setter_name field) (ClansWith qs field init) members)
                fields members))
          (heap w))).
Proof.
  induction fields as [|field fields IH]; intros members w init Hn Hlt; simpl.
  - rewrite <- Hn, replace_at_same by assumption.
    now rewrite with_heap_same.
  - unfold bind at 1. unfold bind at 1.
    rewrite (define_eval _ _ _ _ _ Hn). unfold ret at 1.
    rewrite (IH (set (setter_name field) (ClansWith qs field init) members)).
    + simpl. unfold with_heap. simpl. now rewrite replace_at_twice.
    + simpl. now apply nth_replace_at_same.
    + simpl. now rewrite length_replace_at.
Qed.

Lemma clans_eval w :
  clans w
  = (Return (RObj (S (List.length (heap w)))),
     with_heap w
       (heap w ++ [ CVal (VObj []);
                    CObject (clans_members (List.length (heap w))
                               (S (List.length (heap w)))) ])).
Proof.
  unfold clans. unfold bind at 1. unfold alloc at 1.
  unfold bind at 1. unfold alloc at 1. cbn [heap self sent].
  unfold bind at 1.
  rewrite (reduce_define _ _ [("fetch", ClansFetch (List.length (heap w)))]).
  - cbn [heap self sent with_heap ret]. rewrite replace_at_last.
    rewrite length_app, Nat.add_1_r.
    unfold ret, with_heap, clans_members. cbn [self heap sent].
    now rewrite <- !app_assoc.
  - cbn [heap]. apply nth_middle.
  - cbn [heap]. rewrite !length_app. simpl. lia.
Qed.

Lemma clans_builder w :
  builder_in (snd (clans w)) (List.length (heap w)) (S (List.length (heap w))) [].
Proof.
  rewrite clans_eval. unfold builder_in. cbn [snd with_heap heap].
  repeat split.
  - apply nth_middle.
  - change (heap w ++ [CVal (VObj []); CObject ?m])
      with (heap w ++ [CVal (VObj [])] ++ [CObject m]).
    rewrite app_assoc.
    replace (S (List.length (heap w))) with (List.length (heap w ++ [CVal (VObj [])]))
      by (rewrite length_app; simpl; lia).
    rewrite nth_middle. rewrite length_app. simpl. now rewrite Nat.add_1_r.
  - rewrite length_app. simpl. lia.
  - rewrite length_app. simpl. lia.
  - lia.
Qed.

Lemma member_setter qs b field :
  In field clans_fields ->
  get (setter_name field) (clans_members qs b) = Some (ClansWith qs field b).
Proof.
  intros H. simpl in H.
  repeat (destruct H as [<-|H]; [reflexivity|]). contradiction.
Qed.

Lemma setter_eval w qs b q field args :
  builder_in w qs b q -> In field clans_fields ->
  invoke b (setter_name field) args w
  = (Return (RObj b),
     with_heap w (replace_at qs (CVal (VObj (set field (arg 0 args) q))) (heap w))).
Proof.
  intros (Hq & Hb & _) Hin.
  unfold invoke, bind, read. simpl. rewrite Hb, (member_setter _ _ _ Hin).
  simpl. unfold assign_property, bind, read. simpl. now rewrite Hq.
Qed.

Lemma setter_builder w qs b q v :
  builder_in w qs b q ->
  builder_in (with_heap w (replace_at qs (CVal (VObj v)) (heap w))) qs b v.
Proof.
  intros (Hq & Hb & Hlq & Hlb & Hne). unfold builder_in. simpl.
  rewrite length_replace_at. repeat split; auto.
  - now apply nth_replace_at_same.
  - rewrite nth_replace_at_other; auto.
Qed.

Lemma fetch_eval w qs b q args :
  builder_in w qs b q ->
  invoke b "fetch" args w
  = (Return (RPromise (List.length (sent w))),
     with_sent w
       (sent w ++
        [VObj (requestOptions (self w)
                 (VObj [ ("qs", VObj q);
                         ("uri", VStr (to_string (uri (self w)) ++ "/clans")) ]))])).
Proof.
  intros (Hq & Hb & _).
  unfold invoke, bind, read. simpl. rewrite Hb. simpl.
  unfold read_var, bind, read. simpl. now rewrite Hq.
Qed.

Lemma links_setters qs b l : forall w q,
  builder_in w qs b q ->
  Forall (fun fv => In (fst fv) clans_fields) l ->
  exists h,
    links (RObj b) (setters l ++ [("fetch", [])]) w
    = (Return (RPromise (List.length (sent w))),
       {| self := self w; heap := h;
          sent := sent w ++
                  [VObj (requestOptions (self w)
                           (VObj [ ("qs", VObj (recorded l q));
                                   ("uri", VStr (to_string (uri (self w)) ++ "/clans")) ]))] |}).
Proof.
  induction l as [|[f v] l IH]; intros w q Hb Hl.
  - simpl. unfold bind. rewrite (fetch_eval _ _ _ _ _ Hb).
    exists (heap w). reflexivity.
  - inversion Hl as [|? ? Hf Hl']; subst. simpl in Hf.
    simpl. unfold bind at 1. rewrite (setter_eval _ _ _ _ _ _ Hb Hf).
    apply (IH _ _ (setter_builder _ _ _ _ (set f v q) Hb) Hl').
Qed.

Lemma clans_chain_eval w l :
  Forall (fun fv => In (fst fv) clans_fields) l ->
  exists h,
    run_chain (clans_chain l) w
    = (Return (RPromise (List.length (sent w))),
       {| self := self w; heap := h;
          sent := sent w ++
                  [VObj (requestOptions (self w)
                           (VObj [ ("qs", VObj (recorded l []));
                                   ("uri", VStr (to_string (uri (self w)) ++ "/clans")) ]))] |}).
Proof.
  intros Hl. unfold run_chain, bind. simpl call_method.
  pose proof (clans_builder w) as Hb. rewrite clans_eval in *. simpl in Hb.
  apply (links_setters _ _ _ _ _ Hb Hl).
Qed.

(** The mapping keeps the last value written to each field. *)
Lemma get_recorded field l q :
  get field (recorded l q)
  = match last_write field l with
    | Some v => Some v
    | None => get field q
    end.
Proof.
  induction l as [|[f v] l IH] using rev_ind; auto.
  unfold recorded, last_write in *. rewrite !fold_left_app. simpl.
  destruct (String.eqb field f) eqn:E.
  - apply String.eqb_eq in E. subst f. apply get_set_same.
  - apply String.eqb_neq in E. rewrite get_set_other; auto.
Qed.

Lemma wf_obj_eq props :
  wf (VObj props)
  = keys_distinct (map fst props) && forallb (fun kv => wf (snd kv)) props.
Proof.
  reflexivity.
Qed.

Lemma keys_distinct_set k (v : value) q :
  keys_distinct (map fst q) = true -> keys_distinct (map fst (set k v q)) = true.
Proof.
  induction q as [|[k' v'] q IH]; simpl; auto.
  intros H. apply andb_prop in H. destruct H as [Hf Hd].
  destruct (String.eqb k k') eqn:E; simpl.
  - now rewrite Hf, Hd.
  - rewrite (IH Hd), andb_true_r. apply negb_true_iff in Hf.
    apply negb_true_iff. apply get_none_not_in.
    apply (get_none_not_in (A := value)) in Hf.
    rewrite get_set_other; auto.
    apply String.eqb_neq in E. congruence.
Qed.

Lemma wf_set k v q :
  wf (VObj q) = true -> wf v = true -> wf (VObj (set k v q)) = true.
Proof.
  rewrite !wf_obj_eq. intros H Hv. apply andb_prop in H. destruct H as [Hd Ha].
  rewrite (keys_distinct_set _ _ _ Hd). simpl.
  clear Hd. induction q as [|[k' v'] q IH]; simpl in *.
  - now rewrite Hv.
  - apply andb_prop in Ha. destruct Ha as [H1 H2].
    destruct (String.eqb k k'); simpl.
    + now rewrite Hv, H2.
    + now rewrite H1, IH.
Qed.

Lemma wf_recorded l : forall q,
  wf (VObj q) = true ->
  Forall (fun fv => wf (snd fv) = true) l ->
  wf (VObj (recorded l q)) = true.
Proof.
  induction l as [|[f v] l IH]; intros q Hq Hl; auto.
  inversion Hl; subst. simpl. apply IH; auto. now apply wf_set.
Qed.

(** Where the defaults say nothing of the method, the request is a GET. *)
Lemma method_is_get c opts :
  well_formed (_requestDefaults c) ->
  silent (_requestDefaults c) ["method"] ->
  per_call opts ->
  http_method (VObj (requestOptions c opts)) = "GET".
Proof.
  intros Hwf Hs Hp. rewrite requestOptions_unfold.
  assert (Hn : get "method" (baseMerge (base_template c) (own_props opts)) = None).
  { destruct Hp as [u|q u]; simpl own_props; rewrite get_baseMerge; reflexivity. }
  destruct (source_silent_none "method" _ _ Hwf Hs Hn) as [H|H];
    unfold http_method; simpl; now rewrite H.
Qed.

(** With defaults that set the filter themselves, the request has their
    value, not the one the chain wrote last. *)
Lemma defaults_override_the_filter :
  let e := {| COC_API_TOKEN := None; config_uri := VStr "https://api" |} in
  let defaults := VObj [("qs", VObj [("minMembers", VNum 5)])] in
  let c := {| token := VStr "t"; uri := VStr "https://api";
              _requestDefaults := defaults |} in
  let l := [("minMembers", VNum 10); ("minMembers", VNum 20)] in
  let w := snd (run_chain (clans_chain l) (fresh c)) in
  constructor e (Some [("token", VStr "t"); ("request", defaults)]) = Return c
  /\ map (get_path ["qs"; "minMembers"]) (sent w) = [Some (VNum 5)]
  /\ map (get_path ["qs"; "minMembers"]) (sent w) <> [Some (VNum 20)].
Proof.
  intros e defaults c l w.
  assert (H : map (get_path ["qs"; "minMembers"]) (sent w) = [Some (VNum 5)])
    by (vm_compute; reflexivity).
  split; [reflexivity|]. split; [exact H|].
  rewrite H. discriminate.
Qed.

(** C4, as the code has it. The builder that [clans()] returns has a
    setter for each of the ten fields; a setter records its value in the
    mapping the builder's functions share and returns the same builder,
    and setting a field twice leaves what setting it once to the second
    value leaves.  A chain of setters, of any length, followed by
    [fetch()] issues exactly one request, built by [requestOptions] from
    the uri of the client followed by /clans and from the mapping, which
    holds for each field the value written last.  Where the defaults of
    the client leave alone uri, method and the path qs.<field> (they have
    no defined uri or method, and either no defined qs or an object qs
    with no defined value for the field), that request is a GET to that
    uri with that value as the parameter of the field: after
    [.withMinMembers(10).withMinMembers(20)], minMembers is 20.  The ten
    fields and their setters are name, warFrequency, locationId,
    minMembers, maxMembers, minClanPoints, minClanLevel, limit, after,
    before and withName ... withBefore. *)
Theorem clans_builder_last_write_wins (w : world) (l : list (string * value)) :
  Forall (fun fv => In (fst fv) clans_fields) l ->
  let c := self w in
  let o := VObj (requestOptions c
                   (VObj [ ("qs", VObj (recorded l []));
                           ("uri", VStr (to_string (uri c) ++ "/clans")) ])) in
  clans_fields
  = [ "name"; "warFrequency"; "locationId"; "minMembers"; "maxMembers";
      "minClanPoints"; "minClanLevel"; "limit"; "after"; "before" ]
  /\ map setter_name clans_fields
     = [ "withName"; "withWarFrequency"; "withLocationId"; "withMinMembers";
         "withMaxMembers"; "withMinClanPoints"; "withMinClanLevel"; "withLimit";
         "withAfter"; "withBefore" ]
  /\ (exists h,
     run_chain (clans_chain l) w
     = (Return (RPromise (List.length (sent w))),
        {| self := c; heap := h; sent := sent w ++ [o] |}))
  /\ builder_in (snd (clans w)) (List.length (heap w)) (S (List.length (heap w))) []
  /\ (forall w' qs b q field input,
        builder_in w' qs b q -> In field clans_fields ->
        exists w'',
          invoke b (setter_name field) [input] w' = (Return (RObj b), w'')
          /\ builder_in w'' qs b (set field input q)
          /\ sent w'' = sent w' /\ self w'' = self w')
  /\ (forall w' qs b q field v1 v2,
        builder_in w' qs b q -> In field clans_fields ->
        links (RObj b) [(setter_name field, [v1]); (setter_name field, [v2])] w'
        = links (RObj b) [(setter_name field, [v2])] w')
  /\ (forall field, get field (recorded l []) = last_write field l)
  /\ (well_formed (_requestDefaults c) ->
      Forall (fun fv => wf (snd fv) = true) l ->
      silent (_requestDefaults c) ["uri"] ->
      silent (_requestDefaults c) ["method"] ->
      http_method o = "GET"
      /\ get_path ["uri"] o = Some (VStr (to_string (uri c) ++ "/clans"))
      /\ forall field x,
           last_write field l = Some (VPrim x) -> x <> PUndef ->
           silent (_requestDefaults c) ["qs"; field] ->
           get_path ["qs"; field] o = Some (VPrim x)).
Proof.
  intros Hl c o.
  assert (Hget : forall field, get field (recorded l []) = last_write field l).
  { intros field. rewrite get_recorded. now destruct (last_write field l). }
  split; [reflexivity|]. split; [reflexivity|].
  split; [|split; [|split; [|split; [|split]]]].
  - apply (clans_chain_eval w l Hl).
  - apply clans_builder.
  - intros w' qs b q field input Hb Hin.
    eexists. split; [apply (setter_eval _ _ _ _ _ _ Hb Hin)|].
    split; [|split; reflexivity].
    apply (setter_builder _ _ _ _ _ Hb).
  - intros w' qs b q field v1 v2 Hb Hin. simpl.
    unfold bind at 1. rewrite (setter_eval _ _ _ _ _ _ Hb Hin).
    unfold bind at 1.
    rewrite (setter_eval _ _ _ _ _ _ (setter_builder _ _ _ _ _ Hb) Hin).
    unfold bind at 1. rewrite (setter_eval _ _ _ _ _ _ Hb Hin).
    unfold with_heap. simpl. now rewrite replace_at_twice, set_set.
  - exact Hget.
  - intros Hwf Hvals Huri Hmethod.
    assert (Hopts : well_formed
                      (VObj [ ("qs", VObj (recorded l []));
                              ("uri", VStr (to_string (uri c) ++ "/clans")) ])).
    { unfold well_formed, seen. simpl own_props. rewrite wf_obj_eq.
      cbn [map fst snd keys_distinct existsb forallb negb andb orb].
      rewrite (wf_recorded l [] eq_refl Hvals). reflexivity. }
    split; [|split].
    + apply method_is_get; auto. constructor.
    + apply (opts_win c _ ["uri"] (PStr (to_string (uri c) ++ "/clans"))); auto.
      split; [discriminate|reflexivity].
    + intros field x Hlast Hx Hs.
      apply opts_win; auto. split; auto.
      simpl. now rewrite Hget, Hlast.
Qed.

Lemma clans_builder_last_write_wins_witness :
  let c := {| token := VStr "t"; uri := VStr "https://api";
              _requestDefaults := VObj [("timeout", VNum 5000)] |} in
  let l := [("minMembers", VNum 10); ("minMembers", VNum 20)] in
  let o := VObj (requestOptions c
                   (VObj [ ("qs", VObj (recorded l []));
                           ("uri", VStr "https://api/clans") ])) in
  (exists h, run_chain (clans_chain l) (fresh c)
             = (Return (RPromise 0), {| self := c; heap := h; sent := [o] |}))
  /\ http_method o = "GET"
  /\ get_path ["uri"] o = Some (VStr "https://api/clans")
  /\ get_path ["qs"; "minMembers"] o = Some (VNum 20).
Proof.
  intros c l o.
  assert (Hl : Forall (fun fv : string * value => In (fst fv) clans_fields) l).
  { repeat (apply Forall_cons; [simpl; auto 10|]). apply Forall_nil. }
  pose proof (clans_builder_last_write_wins (fresh c) l Hl) as H.
  cbv zeta in H. apply proj2, proj2 in H.
  split; [exact (proj1 H)|].
  assert (Hv : Forall (fun fv : string * value => wf (snd fv) = true) l).
  { repeat (apply Forall_cons; [reflexivity|]). apply Forall_nil. }
  destruct (proj2 (proj2 (proj2 (proj2 (proj2 H)))) eq_refl Hv eq_refl eq_refl)
    as (Hm & Hu & Hq).
  split; [exact Hm|]. split; [exact Hu|].
  apply (Hq "minMembers" (PNum 20)); [reflexivity|discriminate|reflexivity].
Defined.

End ClansFacts.

(** ** The methods that take a tag *)

Module TagFacts.
Import Js Lodash Builtins Index Spec ObjFacts MergeFacts Options ClansFacts.







Lemma append_empty_r s : (s ++ "")%string = s.
Proof. induction s as [|c s IH]; simpl; auto. now rewrite IH. Qed.


Lemma call_method_eval m tag w path :
  tag_path m (encodeURIComponent tag) = Some path ->
  call_method m [tag] w
  = (Return (RPromise (List.length (sent w))),
     with_sent w
       (sent w ++
        [VObj (requestOptions (self w)
                 (VObj [("uri", VStr (to_string (uri (self w)) ++ path))]))])).
Proof.
  destruct m; simpl; intros H; try discriminate; injection H as <-; reflexivity.
Qed.




End TagFacts.

(** ** The location builder *)

Module LocationFacts.
Import Js Lodash Builtins Index Spec ObjFacts HeapFacts.

Lemma assign_is_not_in_scope :
  existsb (String.eqb "assign") (module_scope ++ global_scope) = false.
Proof. reflexivity. Qed.

(** [withId] stops at its first use of [assign], before it has made the
    object it was to return. *)
Lemma withId_throws locId w :
  fst (withId locId w) = Throw (ReferenceError "assign is not defined")
  /\ sent (snd (withId locId w)) = sent w
  /\ self (snd (withId locId w)) = self w.
Proof. repeat split. Qed.

Lemma locations_eval w :
  locations w
  = (Return (RObj (List.length (heap w))),
     with_heap w (heap w ++ [CObject [("fetch", LocationsFetch); ("withId", WithId)]])).
Proof. reflexivity. Qed.

Lemma invoke_eval a name args w members f :
  nth a (heap w) CUninit = CObject members ->
  get name members = Some f ->
  invoke a name args w = call f args w.
Proof.
  intros Ha Hf. unfold invoke, bind, read. simpl. now rewrite Ha, Hf.
Qed.

Lemma location_chain_eval L l w :
  exists w',
    run_chain (location_chain L l) w
    = (Throw (ReferenceError "assign is not defined"), w')
    /\ sent w' = sent w.
Proof.
  unfold run_chain, location_chain. cbn [first first_args rest call_method].
  unfold bind at 1. rewrite locations_eval. cbn [links].
  unfold bind at 1.
  rewrite (invoke_eval _ "withId" _ _
             [("fetch", LocationsFetch); ("withId", WithId)] WithId);
    [|apply nth_middle|reflexivity].
  cbn [call arg nth].
  match goal with
  | |- context [withId L ?w'] =>
      destruct (withId_throws L w') as (H1 & H2 & _);
      destruct (withId L w') as [out w'']
  end.
  simpl in H1, H2. subst out. exists w''. split; [reflexivity|exact H2].
Qed.

Lemma location_chain_throws L l w :
  fst (run_chain (location_chain L l) w)
  = Throw (ReferenceError "assign is not defined")
  /\ sent (snd (run_chain (location_chain L l) w)) = sent w.
Proof.
  destruct (location_chain_eval L l w) as (w' & -> & H). auto.
Qed.

(** What the two chains would do in a module that imported [assign] from
    lodash next to [merge]: the ranking chains issue their request, and
    the [fetch] of the object [withId] returns still fails, its [this]
    being that object. *)
Lemma with_assign_rankings c L :
  let scope := "assign" :: module_scope ++ global_scope in
  let run sel :=
    (l <- withId_in scope L ;; links l [(sel, []); ("fetch", [])]) (fresh c) in
  let uri_of kind :=
    VStr (to_string (uri c) ++ "/locations/" ++ encodeURIComponent L
          ++ "/rankings/" ++ kind) in
  (fst (run "byPlayer") = Return (RPromise 0)
   /\ sent (snd (run "byPlayer"))
      = [VObj (requestOptions c (VObj [("uri", uri_of "players")]))])
  /\ (fst (run "byClan") = Return (RPromise 0)
      /\ sent (snd (run "byClan"))
         = [VObj (requestOptions c (VObj [("uri", uri_of "clans")]))]).
Proof. repeat split. Qed.

Lemma with_assign_location_fetch c L :
  let scope := "assign" :: module_scope ++ global_scope in
  let run := (l <- withId_in scope L ;; links l [("fetch", [])]) (fresh c) in
  fst run = Throw (TypeError "this.requestOptions is not a function")
  /\ sent (snd run) = [].
Proof. repeat split. Qed.

(** C2, on the code. For every location id and every world,
    [locations().withId(L).byPlayer().fetch()] and
    [locations().withId(L).byClan().fetch()] throw the reference error of
    the identifier [assign], which the module uses without importing it,
    and issue no request. *)
Theorem ranking_chains_throw (L : value) (w : world) :
  (fst (run_chain (location_chain L ["byPlayer"; "fetch"]) w)
   = Throw (ReferenceError "assign is not defined")
   /\ sent (snd (run_chain (location_chain L ["byPlayer"; "fetch"]) w)) = sent w)
  /\ (fst (run_chain (location_chain L ["byClan"; "fetch"]) w)
      = Throw (ReferenceError "assign is not defined")
      /\ sent (snd (run_chain (location_chain L ["byClan"; "fetch"]) w)) = sent w).
Proof. split; apply location_chain_throws. Qed.

(** C6, on the code. For every location id and every world,
    [locations().withId(L)] throws the reference error of the identifier
    [assign] and returns no object, so that [locations().withId(L).fetch()]
    issues no request; and the [fetch] that [withId] builds for that
    object is not bound to the client, so that even with [assign] in scope
    calling it throws a type error and issues no request. *)
Theorem location_fetch_throws (L : value) (w : world) (c : ClashApi) :
  (fst (run_chain (location_chain L []) w)
   = Throw (ReferenceError "assign is not defined"))
  /\ (fst (run_chain (location_chain L ["fetch"]) w)
      = Throw (ReferenceError "assign is not defined")
      /\ sent (snd (run_chain (location_chain L ["fetch"]) w)) = sent w)
  /\ (let run :=
        (l <- withId_in ("assign" :: module_scope ++ global_scope) L ;;
         links l [("fetch", [])]) (fresh c) in
      fst run = Throw (TypeError "this.requestOptions is not a function")
      /\ sent (snd run) = []).
Proof.
  split; [apply location_chain_throws|].
  split; [apply location_chain_throws|].
  apply with_assign_location_fetch.
Qed.

End LocationFacts.


(** ** What [encodeURIComponent] does to an identifier *)

Module EncodeFacts.
Import Js Lodash Builtins Index Spec MergeFacts Options TagFacts.

Lemma hex_digit_unreserved n : uriUnreserved (hex_digit n) = true.
Proof. do 16 (destruct n as [|n]; [reflexivity|]). reflexivity. Qed.

(** A character that is escaped, other than the percent sign, occurs
    nowhere in an encoded string. *)
Lemma encode_free c s :
  uriUnreserved c = false -> c <> "%"%char -> count_char c (encode s) = 0.
Proof.
  intros Hc Hp.
  assert (Hne : forall c', uriUnreserved c' = true -> Ascii.eqb c c' = false).
  { intros c' H. destruct (Ascii.eqb c c') eqn:E; auto.
    apply Ascii.eqb_eq in E. subst c'. congruence. }
  induction s as [|c' s IH]; [reflexivity|]. cbn [encode].
  destruct (uriUnreserved c') eqn:E.
  - cbn [count_char]. now rewrite (Hne _ E), IH.
  - unfold percent. cbn [append count_char].
    rewrite !(Hne _ (hex_digit_unreserved _)), IH.
    destruct (Ascii.eqb c "%") eqn:E'; auto.
    apply Ascii.eqb_eq in E'. contradiction.
Qed.

Lemma count_char_app c a b :
  count_char c (a ++ b) = count_char c a + count_char c b.
Proof.
  induction a as [|c' a IH]; simpl; auto. rewrite IH. lia.
Qed.

(** Each method puts the tag between two fixed texts. *)
Lemma tag_path_form m :
  (forall t, tag_path m t = None)
  \/ exists pre post, forall t, tag_path m t = Some (pre ++ t ++ post)%string.
Proof.
  destruct m; simpl; auto; right.
  - exists "/clans/", "". intros t. now rewrite append_empty_r.
  - exists "/clans/", "/members". auto.
  - exists "/clans/", "/warlog". auto.
  - exists "/clans/", "/currentwar". auto.
  - exists "/clans/", "/currentwar/leaguegroup". auto.
  - exists "/clanwarleagues/wars/", "". intros t. now rewrite append_empty_r.
  - exists "/players/", "". intros t. now rewrite append_empty_r.
Qed.

(** *** The encoding loses nothing *)

Lemma hex_digit_inj a b : a < 16 -> b < 16 -> hex_digit a = hex_digit b -> a = b.
Proof.
  intros Ha Hb H.
  assert (Hv : forall n, n < 16 ->
            match String.index 0 (String (hex_digit n) EmptyString) "0123456789ABCDEF" with
            | Some i => i = n
            | None => False
            end).
  { intros n Hn. do 16 (destruct n as [|n]; [reflexivity|]). lia. }
  pose proof (Hv a Ha) as H1. pose proof (Hv b Hb) as H2. rewrite H in H1.
  destruct (String.index 0 (String (hex_digit b) EmptyString) "0123456789ABCDEF");
    [congruence|contradiction].
Qed.

Lemma percent_inj c1 c2 : percent c1 = percent c2 -> c1 = c2.
Proof.
  intros H.
  assert (Hhi : hex_digit (nat_of_ascii c1 / 16) = hex_digit (nat_of_ascii c2 / 16))
    by (unfold percent in H; cbv zeta in H; congruence).
  assert (Hlo : hex_digit (nat_of_ascii c1 mod 16) = hex_digit (nat_of_ascii c2 mod 16))
    by (unfold percent in H; cbv zeta in H; congruence).
  pose proof (nat_ascii_bounded c1) as B1. pose proof (nat_ascii_bounded c2) as B2.
  assert (D1 : nat_of_ascii c1 / 16 < 16) by (apply Nat.Div0.div_lt_upper_bound; lia).
  assert (D2 : nat_of_ascii c2 / 16 < 16) by (apply Nat.Div0.div_lt_upper_bound; lia).
  assert (M1 : nat_of_ascii c1 mod 16 < 16) by (apply Nat.mod_upper_bound; lia).
  assert (M2 : nat_of_ascii c2 mod 16 < 16) by (apply Nat.mod_upper_bound; lia).
  apply hex_digit_inj in Hhi; auto. apply hex_digit_inj in Hlo; auto.
  assert (E : nat_of_ascii c1 = nat_of_ascii c2).
  { rewrite (Nat.div_mod_eq (nat_of_ascii c1) 16), (Nat.div_mod_eq (nat_of_ascii c2) 16).
    now rewrite Hhi, Hlo. }
  rewrite <- (ascii_nat_embedding c1), <- (ascii_nat_embedding c2). now rewrite E.
Qed.

Lemma percent_append_inv c c' x y :
  (percent c ++ x = percent c' ++ y)%string -> percent c = percent c' /\ x = y.
Proof.
  unfold percent. cbv zeta.
  generalize (hex_digit (nat_of_ascii c / 16)) (hex_digit (nat_of_ascii c mod 16))
    (hex_digit (nat_of_ascii c' / 16)) (hex_digit (nat_of_ascii c' mod 16)).
  intros a b a' b'. cbn [append]. intros H. injection H as -> -> ->. auto.
Qed.

Lemma percent_head c x : exists y, (percent c ++ x)%string = String "%" y.
Proof. unfold percent. cbn [append]. eauto. Qed.

Lemma encode_inj s1 : forall s2, encode s1 = encode s2 -> s1 = s2.
Proof.
  induction s1 as [|c1 s1 IH]; intros [|c2 s2]; cbn [encode]; auto.
  - destruct (uriUnreserved c2); [discriminate|].
    destruct (percent_head c2 (encode s2)) as [y ->]. discriminate.
  - destruct (uriUnreserved c1); [discriminate|].
    destruct (percent_head c1 (encode s1)) as [y ->]. discriminate.
  - destruct (uriUnreserved c1) eqn:E1; destruct (uriUnreserved c2) eqn:E2.
    + intros H. injection H as -> H. f_equal. auto.
    + destruct (percent_head c2 (encode s2)) as [y ->].
      intros H. injection H as -> _. discriminate.
    + destruct (percent_head c1 (encode s1)) as [y ->].
      intros H. injection H as <- _. discriminate.
    + intros H. apply percent_append_inv in H. destruct H as [Hp Hrest].
      f_equal; auto. now apply percent_inj.
Qed.

Lemma length_append a b : String.length (a ++ b) = String.length a + String.length b.
Proof. induction a as [|c a IH]; simpl; auto. Qed.

Lemma append_inv_head a b c : (a ++ b = a ++ c)%string -> b = c.
Proof. induction a as [|x a IH]; simpl; auto. intros H. injection H as H. auto. Qed.

Lemma append_inv_tail c a : forall b, (a ++ c = b ++ c)%string -> a = b.
Proof.
  induction a as [|x a IH]; intros [|y b] H; auto.
  - apply (f_equal String.length) in H. simpl in H. rewrite length_append in H. lia.
  - apply (f_equal String.length) in H. simpl in H. rewrite length_append in H. lia.
  - simpl in H. injection H as -> H. f_equal. auto.
Qed.

Lemma tag_request_uri m :
  In m [ MclanByTag; MclanMembersByTag; MclanWarlogByTag; MclanCurrentWarByTag;
         MclanLeague; MclanLeagueWars; MplayerByTag ] ->
  exists pre post,
    forall t w,
      _requestDefaults (self w) = VObj [] ->
      map (get_path ["uri"]) (sent (snd (call_method m [VStr t] w)))
      = map (get_path ["uri"]) (sent w)
        ++ [Some (VStr (to_string (uri (self w)) ++ pre ++ encode t ++ post))].
Proof.
  intros Hm. destruct (tag_path_form m) as [H|(pre & post & H)].
  - exfalso. specialize (H "").
    simpl in Hm. repeat (destruct Hm as [<-|Hm]; [discriminate|]). exact Hm.
  - exists pre, post. intros t w Hd.
    rewrite (call_method_eval m (VStr t) w _ (H _)). cbn [snd with_sent sent].
    rewrite map_app. f_equal. cbn [map]. f_equal.
    rewrite requestOptions_unfold, Hd. reflexivity.
Qed.

Lemma separator_is_escaped ch :
  In ch (list_ascii_of_string "/?#&=+:;,@$ []<>") ->
  uriUnreserved ch = false /\ ch <> "%"%char.
Proof.
  intros H. simpl in H.
  repeat (destruct H as [<-|H]; [split; [reflexivity|discriminate]|]).
  contradiction.
Qed.

(** X1. For a client with empty defaults and every tag, the uri that each
    of the seven tag-taking methods requests has the separators of the
    uri it requests for the empty tag and no others: each of the
    characters / ? # & = + : ; , @ $ [ ] < > and the space occurs in the
    one as often as in the other.  A tag cannot add a path segment, a
    query or a fragment. *)
Theorem tag_cannot_change_the_path (m : method) (t : string) (w : world) (ch : ascii) :
  In m [ MclanByTag; MclanMembersByTag; MclanWarlogByTag; MclanCurrentWarByTag;
         MclanLeague; MclanLeagueWars; MplayerByTag ] ->
  In ch (list_ascii_of_string "/?#&=+:;,@$ []<>") ->
  _requestDefaults (self w) = VObj [] ->
  exists path template,
    map (get_path ["uri"]) (sent (snd (call_method m [VStr t] w)))
    = map (get_path ["uri"]) (sent w)
      ++ [Some (VStr (to_string (uri (self w)) ++ path))]
    /\ map (get_path ["uri"]) (sent (snd (call_method m [VStr ""] w)))
       = map (get_path ["uri"]) (sent w)
         ++ [Some (VStr (to_string (uri (self w)) ++ template))]
    /\ count_char ch path = count_char ch template.
Proof.
  intros Hm Hch Hd.
  destruct (tag_request_uri m Hm) as (pre & post & H).
  destruct (separator_is_escaped ch Hch) as [Hc Hne].
  exists (pre ++ encode t ++ post)%string, (pre ++ encode "" ++ post)%string.
  split; [now apply H|]. split; [now apply H|].
  rewrite !count_char_app, !(encode_free _ _ Hc Hne). reflexivity.
Qed.

Lemma tag_cannot_change_the_path_witness :
  let c := {| token := VStr "t"; uri := VStr "https://api";
              _requestDefaults := VObj [] |} in
  exists path template,
    map (get_path ["uri"])
      (sent (snd (call_method MclanMembersByTag [VStr "#A/../B?x=1"] (fresh c))))
    = [Some (VStr ("https://api" ++ path))]
    /\ map (get_path ["uri"])
         (sent (snd (call_method MclanMembersByTag [VStr ""] (fresh c))))
       = [Some (VStr ("https://api" ++ template))]
    /\ count_char "/" path = count_char "/" template.
Proof.
  intros c.
  apply (tag_cannot_change_the_path MclanMembersByTag "#A/../B?x=1" (fresh c) "/").
  - simpl. auto.
  - simpl. auto.
  - reflexivity.
Defined.

(** X2. For a client with empty defaults, each of the seven tag-taking
    methods requests different uris for different tags: the tag is
    encoded without loss and kept apart from the fixed text of the
    path, so that no two clans or players share a uri. *)
Theorem distinct_tags_distinct_paths (m : method) (t1 t2 : string) (w : world) :
  In m [ MclanByTag; MclanMembersByTag; MclanWarlogByTag; MclanCurrentWarByTag;
         MclanLeague; MclanLeagueWars; MplayerByTag ] ->
  _requestDefaults (self w) = VObj [] ->
  t1 <> t2 ->
  map (get_path ["uri"]) (sent (snd (call_method m [VStr t1] w)))
  <> map (get_path ["uri"]) (sent (snd (call_method m [VStr t2] w))).
Proof.
  intros Hm Hd Hne Heq.
  destruct (tag_request_uri m Hm) as (pre & post & H).
  rewrite (H t1 w Hd), (H t2 w Hd) in Heq.
  apply app_inv_head in Heq. injection Heq as Heq.
  apply append_inv_head, append_inv_head, append_inv_tail, encode_inj in Heq.
  contradiction.
Qed.

Lemma distinct_tags_distinct_paths_witness :
  let c := {| token := VStr "t"; uri := VStr "https://api";
              _requestDefaults := VObj [] |} in
  map (get_path ["uri"]) (sent (snd (call_method MclanByTag [VStr "#ABC"] (fresh c))))
  <> map (get_path ["uri"]) (sent (snd (call_method MclanByTag [VStr "%23ABC"] (fresh c)))).
Proof.
  intros c.
  apply (distinct_tags_distinct_paths MclanByTag "#ABC" "%23ABC" (fresh c)).
  - simpl. auto.
  - reflexivity.
  - discriminate.
Defined.

End EncodeFacts.

(** ** How many requests a call issues *)

Module SendFacts.
Import Js Lodash Builtins Index Spec ObjFacts HeapFacts TagFacts.

Lemma quiet_ret {A} (a : A) : quiet (ret a).
Proof. now intros w. Qed.

Lemma quiet_throw {A} e : quiet (@throw A e).
Proof. now intros w. Qed.

Lemma quiet_bind {A B} (m : M A) (f : A -> M B) :
  quiet m -> (forall a, quiet (f a)) -> quiet (bind m f).
Proof.
  intros Hm Hf w. unfold bind. specialize (Hm w).
  destruct (m w) as [[a|e] w']; simpl in *; auto.
  now rewrite Hf.
Qed.

Lemma quiet_this : quiet this.
Proof. now intros w. Qed.

Lemma quiet_alloc c : quiet (alloc c).
Proof. now intros w. Qed.

Lemma quiet_read a : quiet (read a).
Proof. now intros w. Qed.

Lemma quiet_write a c : quiet (write a c).
Proof. now intros w. Qed.

Create HintDb quiet.
#[local] Hint Resolve quiet_ret quiet_throw quiet_this quiet_alloc quiet_read quiet_write : quiet.

Ltac quiet_step :=
  repeat first
    [ solve [auto with quiet]
    | apply quiet_bind; [|intros ?]
    | match goal with
      | |- quiet (match ?x with _ => _ end) => destruct x
      | |- quiet (if ?x then _ else _) => destruct x
      end ].

Lemma quiet_read_var a : quiet (read_var a).
Proof. unfold read_var. quiet_step. Qed.

Lemma quiet_read_const name a : quiet (read_const name a).
Proof. unfold read_const. quiet_step. Qed.

Lemma quiet_define a name f : quiet (define a name f).
Proof. unfold define. quiet_step. Qed.

Lemma quiet_assign_property a field input : quiet (assign_property a field input).
Proof. unfold assign_property. quiet_step. Qed.

Lemma quiet_resolve scope name : quiet (resolve scope name).
Proof. unfold resolve. quiet_step. Qed.

Lemma quiet_reduce {A B} (f : B -> A -> M B) l :
  (forall b x, quiet (f b x)) -> forall init, quiet (reduce f l init).
Proof.
  intros Hf. induction l as [|x l IH]; intros init; simpl.
  - apply quiet_ret.
  - apply quiet_bind; auto.
Qed.

#[local] Hint Resolve quiet_read_var quiet_read_const quiet_define
  quiet_assign_property quiet_resolve : quiet.

Lemma quiet_clans : quiet clans.
Proof. unfold clans. quiet_step. Qed.

Lemma quiet_assign object source : quiet (assign object source).
Proof.
  unfold assign. apply quiet_bind; [auto with quiet|]. intros c.
  destruct c; auto with quiet.
  apply quiet_reduce. intros b x. quiet_step.
Qed.

#[local] Hint Resolve quiet_clans quiet_assign : quiet.

Lemma quiet_withId_in scope locId : quiet (withId_in scope locId).
Proof. unfold withId_in. quiet_step. Qed.

Lemma quiet_locations : quiet locations.
Proof. unfold locations. quiet_step. Qed.

Lemma one_shot_quiet m : quiet m -> one_shot m.
Proof. intros H w. left. apply H. Qed.

Lemma one_shot_bind {A} (m : M A) (f : A -> M jsref) :
  quiet m -> (forall a, one_shot (f a)) -> one_shot (bind m f).
Proof.
  intros Hm Hf w. unfold bind. specialize (Hm w).
  destruct (m w) as [[a|e] w']; simpl in *; auto.
  rewrite <- Hm. apply Hf.
Qed.

Lemma one_shot_request options : one_shot (request options).
Proof. intros w. right. exists (VObj options), (List.length (sent w)). auto. Qed.

Lemma quiet_this_requestOptions opts : quiet (this_requestOptions opts).
Proof. now intros w. Qed.

Lemma one_shot_fetch_uri path : one_shot (fetch_uri path).
Proof.
  unfold fetch_uri. apply one_shot_bind; [apply quiet_this|]. intros c.
  apply one_shot_bind; [apply quiet_this_requestOptions|].
  intros o. apply one_shot_request.
Qed.

Lemma one_shot_call f args : one_shot (call f args).
Proof.
  destruct f; simpl.
  - apply one_shot_bind; [apply quiet_read_var|]. intros q.
    apply one_shot_bind; [apply quiet_this|]. intros c.
    apply one_shot_bind; [apply quiet_this_requestOptions|].
    intros o. apply one_shot_request.
  - apply one_shot_quiet. quiet_step.
  - apply one_shot_fetch_uri.
  - apply one_shot_quiet, quiet_withId_in.
  - apply one_shot_quiet. quiet_step.
  - apply one_shot_quiet. quiet_step.
  - apply one_shot_bind; [apply quiet_read_var|]. intros r. apply one_shot_fetch_uri.
  - apply one_shot_quiet, quiet_throw.
Qed.

Lemma quiet_inherited a name :
  quiet (match inherited a name with
         | Some m => m
         | None => throw (NotAFunction name)
         end).
Proof.
  unfold inherited.
  repeat match goal with
         | |- context [if ?b then _ else _] => destruct b
         end; auto with quiet.
Qed.

Lemma one_shot_invoke a name args : one_shot (invoke a name args).
Proof.
  unfold invoke. apply one_shot_bind; [apply quiet_read|]. intros c.
  destruct c; try (apply one_shot_quiet, quiet_throw).
  destruct (get name members); [apply one_shot_call|].
  apply one_shot_quiet, quiet_inherited.
Qed.

Lemma one_shot_call_method m args : one_shot (call_method m args).
Proof.
  destruct m; simpl;
    first [ apply one_shot_fetch_uri
          | apply one_shot_quiet, quiet_clans
          | apply one_shot_quiet, quiet_locations ].
Qed.

(** Once a request is out, the chain has its promise and goes no
    further. *)
Lemma links_at_most_one l : forall r w,
  sent (snd (links r l w)) = sent w
  \/ exists o, sent (snd (links r l w)) = sent w ++ [o].
Proof.
  induction l as [|[name args] l IH]; intros r w; simpl; auto.
  destruct r as [a|n|]; simpl; auto.
  unfold bind. destruct (one_shot_invoke a name args w) as [H|(o & n & Hr & H)].
  - destruct (invoke a name args w) as [[r'|e] w']; simpl in *; auto.
    rewrite <- H. apply IH.
  - destruct (invoke a name args w) as [[r'|e] w']; simpl in *; try discriminate.
    injection Hr as ->. destruct l as [|[name' args'] l]; simpl; eauto.
Qed.

Lemma run_chain_at_most_one c w :
  sent (snd (run_chain c w)) = sent w
  \/ exists o, sent (snd (run_chain c w)) = sent w ++ [o].
Proof.
  unfold run_chain, bind.
  destruct (one_shot_call_method (first c) (first_args c) w) as [H|(o & n & Hr & H)].
  - destruct (call_method (first c) (first_args c) w) as [[r|e] w']; simpl in *; auto.
    rewrite <- H. apply links_at_most_one.
  - destruct (call_method (first c) (first_args c) w) as [[r|e] w']; simpl in *;
      try discriminate.
    injection Hr as ->. destruct (rest c) as [|[name args] l]; simpl; eauto.
Qed.

(** X4. A chain of calls on the client (a method, then any calls on what
    it returned) issues at most one request, and the requests already
    issued stay as they are: after any sequence of chains the list of
    requests is the one before followed by at most one request per
    chain. *)
Theorem chains_send_at_most_one_each (cs : list chain) (w : world) :
  exists added,
    sent (run_all cs w) = sent w ++ added
    /\ List.length added <= List.length cs.
Proof.
  revert w. induction cs as [|c cs IH]; intros w; simpl.
  - exists []. split; [now rewrite app_nil_r|auto].
  - destruct (IH (snd (run_chain c w))) as (added & Hs & Hl).
    destruct (run_chain_at_most_one c w) as [H|[o H]]; rewrite H in Hs.
    + exists added. split; auto.
    + exists (o :: added). split; [now rewrite <- app_assoc in Hs|simpl; lia].
Qed.

Lemma direct_eval c w path :
  direct_path c = Some path ->
  run_chain c w
  = (Return (RPromise (List.length (sent w))),
     with_sent w (sent w ++ [direct_request (self w) path])).
Proof.
  destruct c as [m args l]. unfold direct_path, run_chain. cbn [first first_args rest].
  intros H.
  assert (Hm : call_method m args w
               = (Return (RPromise (List.length (sent w))),
                  with_sent w (sent w ++ [direct_request (self w) path]))).
  { destruct m; cbn [tag_path] in H; try discriminate; injection H as <-; reflexivity. }
  unfold bind. rewrite Hm. destruct l as [|[name args'] l]; reflexivity.
Qed.

(** X5. The methods that fetch directly (the seven that take a tag, and
    [leagues]) keep nothing between calls: a sequence of such calls issues
    one request per call, in the order of the calls, each built by
    [requestOptions] from the uri of the client followed by the path of
    the call, so that the same call made twice issues the same request
    twice. *)
Theorem direct_calls_are_not_cached (cs : list chain) (paths : list string) (w : world) :
  map direct_path cs = map Some paths ->
  sent (run_all cs w) = sent w ++ map (direct_request (self w)) paths
  /\ List.length (sent (run_all cs w)) = List.length (sent w) + List.length cs.
Proof.
  intros H.
  assert (Hs : sent (run_all cs w) = sent w ++ map (direct_request (self w)) paths).
  { revert paths w H. induction cs as [|c cs IH]; intros [|path paths] w H;
      try discriminate; simpl.
    - now rewrite app_nil_r.
    - injection H as Hc H. rewrite (direct_eval _ _ _ Hc). cbn [snd].
      rewrite (IH _ _ H). simpl. now rewrite <- app_assoc. }
  split; auto. rewrite Hs, length_app, length_map.
  apply (f_equal (@List.length _)) in H. rewrite !length_map in H. lia.
Qed.

Lemma direct_calls_are_not_cached_witness :
  let c := {| token := VStr "t"; uri := VStr "https://api";
              _requestDefaults := VObj [] |} in
  let call := {| first := MclanByTag; first_args := [VStr "#ABC123"]; rest := [] |} in
  sent (run_all [call; call] (fresh c))
  = [ direct_request c "/clans/%23ABC123"; direct_request c "/clans/%23ABC123" ].
Proof.
  intros c call.
  apply (proj1 (direct_calls_are_not_cached [call; call]
                  ["/clans/%23ABC123"; "/clans/%23ABC123"] (fresh c) eq_refl)).
Defined.

End SendFacts.

(** ** More on the builders *)

Module BuilderFacts.
Import Js Lodash Builtins Index Spec ObjFacts MergeFacts Options HeapFacts
  ClansFacts LocationFacts SendFacts.

Lemma get_baseMerge_absent k source : forall object,
  get k source = None -> get k (baseMerge object source) = get k object.
Proof.
  induction source as [|[k1 v1] source IH]; intros object H; auto.
  rewrite baseMerge_cons. simpl in H.
  destruct (String.eqb k k1) eqn:E; [discriminate|].
  rewrite (IH _ H). apply get_assignMergeValue_other.
  now apply String.eqb_neq.
Qed.

Lemma locations_fetch_eval w :
  exists h,
    run_chain {| first := Mlocations; first_args := []; rest := [("fetch", [])] |} w
    = (Return (RPromise (List.length (sent w))),
       {| self := self w; heap := h;
          sent := sent w ++ [direct_request (self w) "/locations"] |}).
Proof.
  unfold run_chain. cbn [first first_args rest call_method].
  unfold bind at 1. rewrite locations_eval. cbn [links].
  unfold bind at 1.
  rewrite (invoke_eval _ "fetch" _ _
             [("fetch", LocationsFetch); ("withId", WithId)] LocationsFetch);
    [|apply nth_middle|reflexivity].
  eexists. reflexivity.
Qed.

(** X6. [leagues()] and [locations().fetch()] each issue exactly one
    request, built by [requestOptions] from the uri of the client followed
    by /leagues and /locations.  Such a request, like that of every method
    that passes a uri only, has no query parameters unless the defaults of
    the client have some, and is a GET to that uri where the defaults
    leave uri and method alone. *)
Theorem parameterless_fetches (w : world) (path : string) :
  let c := self w in
  let o := direct_request c path in
  run_chain {| first := Mleagues; first_args := []; rest := [] |} w
  = (Return (RPromise (List.length (sent w))),
     with_sent w (sent w ++ [direct_request c "/leagues"]))
  /\ (exists h,
        run_chain {| first := Mlocations; first_args := []; rest := [("fetch", [])] |} w
        = (Return (RPromise (List.length (sent w))),
           {| self := c; heap := h;
              sent := sent w ++ [direct_request c "/locations"] |}))
  /\ (get "qs" (own_props (_requestDefaults c)) = None -> prop "qs" o = None)
  /\ (well_formed (_requestDefaults c) ->
      silent (_requestDefaults c) ["uri"] -> silent (_requestDefaults c) ["method"] ->
      get_path ["uri"] o = Some (VStr (to_string (uri c) ++ path))
      /\ http_method o = "GET").
Proof.
  intros c o. split; [reflexivity|]. split; [apply locations_fetch_eval|]. split.
  - intros Hq. unfold o, direct_request. simpl prop.
    rewrite requestOptions_unfold, (get_baseMerge_absent _ _ _ Hq).
    now rewrite get_baseMerge_absent.
  - intros Hwf Hu Hm. split.
    + apply (opts_win c _ ["uri"] (PStr _)); auto;
        try reflexivity; split; [discriminate|reflexivity].
    + apply method_is_get; auto. constructor.
Qed.

Lemma parameterless_fetches_witness :
  let c := {| token := VStr "t"; uri := VStr "https://api";
              _requestDefaults := VObj [("timeout", VNum 5000)] |} in
  prop "qs" (direct_request c "/leagues") = None
  /\ get_path ["uri"] (direct_request c "/leagues") = Some (VStr "https://api/leagues")
  /\ http_method (direct_request c "/leagues") = "GET".
Proof.
  intros c.
  pose proof (parameterless_fetches (fresh c) "/leagues") as H. cbv zeta in H.
  destruct H as (_ & _ & Hq & Hu).
  split; [exact (Hq eq_refl)|exact (Hu eq_refl eq_refl eq_refl)].
Defined.


Lemma clans_members_names qs b : map fst (clans_members qs b) = clans_method_names.
Proof. reflexivity. Qed.





Lemma builder_other_cell w qs b q qs' v :
  builder_in w qs b q -> qs' <> qs -> qs' <> b ->
  builder_in (with_heap w (replace_at qs' v (heap w))) qs b q.
Proof.
  intros (Hq & Hb & Hlq & Hlb & Hne) H1 H2. unfold builder_in. simpl.
  rewrite length_replace_at, !nth_replace_at_other; auto.
Qed.

Lemma builder_more_heap w qs b q more :
  builder_in w qs b q -> builder_in (with_heap w (heap w ++ more)) qs b q.
Proof.
  intros (Hq & Hb & Hlq & Hlb & Hne). unfold builder_in. simpl.
  rewrite length_app, !app_nth1; auto. repeat split; auto; lia.
Qed.

(** X8. Each call of [clans()] returns a builder with a mapping of its
    own: the call leaves the builders made before, and what they have
    recorded, as they were, and a setter called on one builder changes
    nothing in another. *)
Theorem builders_are_independent
    (w : world) (qs1 b1 qs2 b2 : nat) (q1 q2 : obj) (field : string) (args : list value) :
  builder_in w qs1 b1 q1 -> builder_in w qs2 b2 q2 -> qs1 <> qs2 ->
  In field clans_fields ->
  builder_in (snd (invoke b1 (setter_name field) args w)) qs2 b2 q2
  /\ builder_in (snd (invoke b1 (setter_name field) args w)) qs1 b1
       (set field (arg 0 args) q1)
  /\ builder_in (snd (clans w)) qs1 b1 q1
  /\ builder_in (snd (clans w)) (List.length (heap w)) (S (List.length (heap w))) []
  /\ List.length (heap w) <> qs1.
Proof.
  intros H1 H2 Hne Hin.
  rewrite (setter_eval _ _ _ _ _ _ H1 Hin). cbn [snd].
  split; [|split; [|split; [|split]]].
  - apply builder_other_cell; auto.
    destruct H1 as (Hq1 & _). destruct H2 as (_ & Hb2 & _).
    intros ->. congruence.
  - apply (setter_builder _ _ _ _ _ H1).
  - rewrite clans_eval. cbn [snd]. now apply builder_more_heap.
  - apply clans_builder.
  - destruct H1 as (_ & _ & Hl & _). lia.
Qed.

Lemma builders_are_independent_witness :
  let c := {| token := VStr "t"; uri := VStr "https://api";
              _requestDefaults := VObj [] |} in
  let w := snd (clans (snd (clans (fresh c)))) in
  builder_in (snd (invoke 1 "withName" [VStr "abc"] w)) 2 3 []
  /\ builder_in (snd (invoke 1 "withName" [VStr "abc"] w)) 0 1 [("name", VStr "abc")].
Proof.
  intros c w.
  assert (H1 : builder_in w 0 1 []).
  { unfold w. rewrite (clans_eval (snd (clans (fresh c)))).
    apply builder_more_heap. apply (clans_builder (fresh c)). }
  assert (H2 : builder_in w 2 3 []) by apply (clans_builder (snd (clans (fresh c)))).
  pose proof (builders_are_independent w 0 1 2 3 [] [] "name" [VStr "abc"] H1 H2) as H.
  destruct H as (Ha & Hb & _); [discriminate|simpl; auto|].
  split; [exact Ha|exact Hb].
Defined.

Lemma fetch_builder w qs b q args :
  builder_in w qs b q -> builder_in (snd (invoke b "fetch" args w)) qs b q.
Proof.
  intros H. rewrite (fetch_eval _ _ _ _ _ H). exact H.
Qed.

(** X9. [fetch] does not use the builder up: after it the builder has the
    same functions and the same mapping, so that a second [fetch] issues
    the same request again, and a setter called between two of them shows
    in the second request only. *)
Theorem builder_outlives_fetch
    (w : world) (qs b : nat) (q : obj) (field : string) (input : value) :
  builder_in w qs b q -> In field clans_fields ->
  let w1 := snd (invoke b "fetch" [] w) in
  let w2 := snd (invoke b (setter_name field) [input] w1) in
  let w3 := snd (invoke b "fetch" [] w2) in
  builder_in w1 qs b q
  /\ sent (snd (invoke b "fetch" [] w1))
     = sent w ++ [clans_request (self w) q; clans_request (self w) q]
  /\ sent w3
     = sent w ++ [clans_request (self w) q; clans_request (self w) (set field input q)].
Proof.
  intros H Hin w1 w2 w3.
  assert (H1 : builder_in w1 qs b q) by now apply fetch_builder.
  assert (Hs1 : sent w1 = sent w ++ [clans_request (self w) q]).
  { unfold w1. now rewrite (fetch_eval _ _ _ _ _ H). }
  assert (Hself1 : self w1 = self w).
  { unfold w1. now rewrite (fetch_eval _ _ _ _ _ H). }
  split; [exact H1|]. split.
  - rewrite (fetch_eval _ _ _ _ _ H1). cbn [snd with_sent sent].
    rewrite Hs1, Hself1, <- app_assoc. reflexivity.
  - assert (H2 : builder_in w2 qs b (set field input q)).
    { unfold w2. rewrite (setter_eval _ _ _ _ _ _ H1 Hin).
      apply (setter_builder _ _ _ _ _ H1). }
    assert (Hw2 : sent w2 = sent w1 /\ self w2 = self w1).
    { unfold w2. rewrite (setter_eval _ _ _ _ _ _ H1 Hin). auto. }
    unfold w3. rewrite (fetch_eval _ _ _ _ _ H2). cbn [snd with_sent sent].
    destruct Hw2 as [-> ->]. rewrite Hs1, Hself1, <- app_assoc. reflexivity.
Qed.

Lemma builder_outlives_fetch_witness :
  let c := {| token := VStr "t"; uri := VStr "https://api";
              _requestDefaults := VObj [] |} in
  let w := snd (clans (fresh c)) in
  sent (snd (invoke 1 "fetch" [] (snd (invoke 1 "fetch" [] w))))
  = [clans_request c []; clans_request c []].
Proof.
  intros c w.
  apply (proj1 (proj2 (builder_outlives_fetch w 0 1 [] "limit" (VNum 10)
                         (clans_builder (fresh c))
                         (or_intror (or_intror (or_intror (or_intror (or_intror
                            (or_intror (or_intror (or_introl eq_refl))))))))))).
Defined.

End BuilderFacts.


(** ** More on construction and on the options of a request *)

Module ClientFacts.
Import Js Lodash Builtins Index Spec ObjFacts MergeFacts Construction Options Frame
  BuilderFacts.

(** X10. A truthy token passed to the constructor is the token of the
    client, whatever the environment variable holds: the environment is
    read only when no token is passed. *)
Theorem explicit_token_wins (e : environment) (arg : option obj) :
  supplies (passed_token arg) ->
  exists c, constructor e arg = Return c /\ token c = passed_token arg.
Proof.
  intros Hp.
  destruct (constructor_cases e arg) as [[Ht _]|[_ (c & Hc & Ht)]].
  - rewrite truthy_or_else, Hp in Ht. discriminate.
  - exists c. split; auto. rewrite Ht. unfold or_else. now rewrite Hp.
Qed.

Lemma explicit_token_wins_witness :
  exists c,
    constructor {| COC_API_TOKEN := Some "from-env"; config_uri := VStr "https://api" |}
      (Some [("token", VStr "passed")]) = Return c
    /\ token c = VStr "passed".
Proof.
  apply (explicit_token_wins
           {| COC_API_TOKEN := Some "from-env"; config_uri := VStr "https://api" |}
           (Some [("token", VStr "passed")]) eq_refl).
Defined.

(** X11. Only the token decides whether a client is constructed: setting
    any other field of the configuration (uri and request among them, to
    any value) leaves the construction succeeding or throwing as before
    and the token of the client as it was, and setting a field other than
    uri, token and request changes nothing at all. *)
Theorem only_the_token_is_checked
    (e : environment) (cfg : obj) (k : string) (v : value) :
  k <> "token" ->
  (forall err, constructor e (Some (set k v cfg)) = Throw err
               <-> constructor e (Some cfg) = Throw err)
  /\ (forall c, constructor e (Some (set k v cfg)) = Return c ->
       exists c', constructor e (Some cfg) = Return c' /\ token c' = token c)
  /\ (k <> "uri" -> k <> "request" ->
      constructor e (Some (set k v cfg)) = constructor e (Some cfg)).
Proof.
  intros Hk.
  assert (Ht : destructure "token" (set k v cfg) = destructure "token" cfg).
  { apply destructure_set_other. congruence. }
  unfold constructor. cbv zeta. cbn [token]. rewrite Ht.
  destruct (negb (truthy (or_else (destructure "token" cfg) (env_COC_API_TOKEN e)))).
  - split; [tauto|]. split; [discriminate|]. reflexivity.
  - split; [split; discriminate|]. split.
    + intros c H. injection H as <-. eexists. split; reflexivity.
    + intros H1 H2. now rewrite !(destructure_set_other _ k) by congruence.
Qed.

Lemma only_the_token_is_checked_witness :
  constructor {| COC_API_TOKEN := None; config_uri := undefined |}
    (Some (set "uri" (VNum 0) [("request", VStr "x")]))
  = Throw (Error no_token_message).
Proof.
  apply (proj1 (only_the_token_is_checked
                  {| COC_API_TOKEN := None; config_uri := undefined |}
                  [("request", VStr "x")] "uri" (VNum 0)
                  ltac:(discriminate)) (Error no_token_message)).
  reflexivity.
Defined.

Lemma defined_stays k source : forall object v,
  get k object = Some v -> v <> undefined ->
  exists v', get k (baseMerge object source) = Some v' /\ v' <> undefined.
Proof.
  induction source as [|[k1 v1] source IH]; intros object v Hg Hv; [eauto|].
  rewrite baseMerge_cons.
  destruct (String.eqb k k1) eqn:E.
  - apply String.eqb_eq in E. subst k1.
    pose proof (get_assignMergeValue_same object k v1) as H.
    destruct v1 as [x|src].
    + destruct x; simpl in H; rewrite ?Hg in H;
        first [ apply (IH _ _ H); discriminate | apply (IH _ _ H Hv) ].
    + unfold merged_at in H. apply (IH _ _ H). rewrite mergedValue_obj. discriminate.
  - apply String.eqb_neq in E. apply (IH _ v); auto.
    now rewrite get_assignMergeValue_other.
Qed.

(** X12. Neither the options of a call nor the defaults can take a
    property of the base template away: whatever they are, the options of
    a request have the properties headers and json, with values that are
    not [undefined] (a source that has [undefined] there is passed
    over). *)
Theorem base_properties_stay (c : ClashApi) (opts : value) (k : string) :
  In k ["headers"; "json"] ->
  exists v, get k (requestOptions c opts) = Some v /\ v <> undefined.
Proof.
  intros Hk. rewrite requestOptions_unfold.
  assert (Hb : exists v, get k (base_template c) = Some v /\ v <> undefined).
  { simpl in Hk. destruct Hk as [<-|[<-|[]]]; eexists; split;
      try reflexivity; discriminate. }
  destruct Hb as (v & Hg & Hv).
  destruct (defined_stays k (own_props opts) _ _ Hg Hv) as (v1 & Hg1 & Hv1).
  apply (defined_stays k _ _ _ Hg1 Hv1).
Qed.

Lemma base_properties_stay_witness :
  let c := {| token := VStr "t"; uri := VStr "https://api";
              _requestDefaults := VObj [("json", undefined)] |} in
  exists v, get "json" (requestOptions c (VObj [("json", undefined)])) = Some v
            /\ v <> undefined.
Proof.
  intros c.
  apply (base_properties_stay c (VObj [("json", undefined)]) "json").
  simpl. auto.
Defined.

Lemma per_call_keeps_base c opts p v :
  per_call opts ->
  match p with
  | k :: _ => k <> "uri" /\ k <> "qs"
  | [] => False
  end ->
  get_path p (VObj (base_template c)) = Some v ->
  get_path p (VObj (baseMerge (base_template c) (own_props opts))) = Some v.
Proof.
  intros Hp Hk Hv. destruct p as [|k p]; [contradiction|]. destruct Hk as [H1 H2].
  cbn [get_path prop] in *.
  rewrite get_baseMerge_absent; auto.
  apply String.eqb_neq in H1, H2.
  destruct Hp; simpl; now rewrite ?H1, ?H2.
Qed.

(** X13. What the base template has at a path that does not start with
    uri or qs (the bearer token under headers.authorization, the Accept
    header, the flag json) is on every request that any sequence of calls
    issues, for every client whose defaults leave that path alone; the
    defaults need not be empty. *)
Theorem base_values_are_on_every_request
    (c : ClashApi) (cs : list chain) (p : list string) (v : value) :
  well_formed (_requestDefaults c) ->
  silent (_requestDefaults c) p ->
  match p with
  | k :: _ => k <> "uri" /\ k <> "qs"
  | [] => False
  end ->
  get_path p (VObj (base_template c)) = Some v ->
  Forall (fun o => get_path p o = Some v) (sent (run_all cs (fresh c))).
Proof.
  intros Hwf Hs Hk Hv.
  pose (I := fun (c' : ClashApi) (s : list value) =>
               c' = c /\ Forall (fun o => get_path p o = Some v) s).
  assert (HI : I (self (run_all cs (fresh c))) (sent (run_all cs (fresh c)))).
  { apply run_all_keeps.
    - intros c' s opts Hp [-> Hall]. split; auto.
      apply Forall_app. split; auto. constructor; auto.
      rewrite requestOptions_unfold. apply source_silent; auto.
      now apply per_call_keeps_base.
    - split; [reflexivity|constructor]. }
  apply HI.
Qed.

Lemma base_values_are_on_every_request_witness :
  let c := {| token := VStr "secret"; uri := VStr "https://api";
              _requestDefaults :=
                VObj [ ("timeout", VNum 5000);
                       ("headers", VObj [("User-Agent", VStr "bot")]) ] |} in
  let cs := [ {| first := Mleagues; first_args := []; rest := [] |};
              {| first := Mclans; first_args := [];
                 rest := [("withLimit", [VNum 5]); ("fetch", [])] |} ] in
  Forall (fun o => get_path ["headers"; "authorization"] o = Some (VStr "Bearer secret"))
    (sent (run_all cs (fresh c))).
Proof.
  intros c cs.
  apply (base_values_are_on_every_request c cs ["headers"; "authorization"]
           (VStr "Bearer secret") eq_refl eq_refl);
    [split; discriminate|reflexivity].
Defined.

End ClientFacts.


(** ** Nothing is sent before [fetch] *)

Module Deferred.
Import Js Lodash Builtins Index Spec ObjFacts HeapFacts SendFacts.

Lemma hkeeps_ret {A} (a : A) : hkeeps (ret a).
Proof. now intros w H. Qed.

Lemma hkeeps_throw {A} e : hkeeps (@throw A e).
Proof. now intros w H. Qed.

Lemma hkeeps_bind {A B} (m : M A) (f : A -> M B) :
  hkeeps m -> (forall a, hkeeps (f a)) -> hkeeps (bind m f).
Proof.
  intros Hm Hf w H. unfold bind. specialize (Hm w H).
  destruct (m w) as [[a|e] w']; simpl in *; auto. now apply Hf.
Qed.

Lemma hkeeps_this : hkeeps this.
Proof. now intros w H. Qed.

Lemma hkeeps_read a : hkeeps (read a).
Proof. now intros w H. Qed.

Lemma hkeeps_request options : hkeeps (request options).
Proof. now intros w H. Qed.

Lemma hkeeps_alloc c : cell_ok c -> hkeeps (alloc c).
Proof.
  intros Hc w H. simpl. apply Forall_app. split; auto.
Qed.

Lemma replace_at_ok a c h : cell_ok c -> heap_ok h -> heap_ok (replace_at a c h).
Proof.
  unfold heap_ok. intros Hc H. revert a.
  induction H as [|x h Hx H IH]; intros [|a]; simpl; constructor; auto.
Qed.

Lemma hkeeps_write a c : cell_ok c -> hkeeps (write a c).
Proof. intros Hc w H. simpl. now apply replace_at_ok. Qed.

Lemma heap_ok_nth h a members :
  heap_ok h -> nth a h CUninit = CObject members -> members_ok members.
Proof.
  intros H Hn. destruct (Nat.lt_ge_cases a (List.length h)) as [Hlt|Hge].
  - unfold heap_ok in H. rewrite Forall_forall in H.
    specialize (H _ (nth_In h CUninit Hlt)). now rewrite Hn in H.
  - rewrite nth_overflow in Hn by assumption. discriminate.
Qed.

Lemma in_set {A} k (v : A) o x :
  In x (set k v o) -> x = (k, v) \/ In x o.
Proof.
  induction o as [|[k' v'] o IH]; simpl.
  - intros [H|[]]. auto.
  - destruct (String.eqb k k') eqn:E; simpl.
    + apply String.eqb_eq in E. subst k'. intros [H|H]; auto.
    + intros [H|H]; auto. destruct (IH H); auto.
Qed.

Lemma get_in {A} k (o : list (string * A)) v : get k o = Some v -> In (k, v) o.
Proof.
  induction o as [|[k' v'] o IH]; simpl; [discriminate|].
  destruct (String.eqb k k') eqn:E.
  - apply String.eqb_eq in E. subst k'. intros [= ->]. auto.
  - auto.
Qed.

Lemma members_ok_set name f members :
  (sends f = true -> name = "fetch") ->
  members_ok members -> members_ok (set name f members).
Proof.
  intros Hf Hm n g Hin Hs. destruct (in_set _ _ _ _ Hin) as [[= -> ->]|H]; auto.
  apply (Hm _ _ H Hs).
Qed.

Lemma hkeeps_define a name f :
  (sends f = true -> name = "fetch") -> hkeeps (define a name f).
Proof.
  intros Hf w H. unfold define, bind, read. simpl.
  destruct (nth a (heap w) CUninit) eqn:E; simpl; auto.
  apply replace_at_ok; auto. simpl.
  apply members_ok_set; auto. apply (heap_ok_nth _ _ _ H E).
Qed.

Lemma hkeeps_assign_property a field input : hkeeps (assign_property a field input).
Proof.
  intros w H. unfold assign_property, bind, read. simpl.
  destruct (nth a (heap w) CUninit) as [[x|o]| | |]; simpl; auto.
  now apply replace_at_ok.
Qed.

Lemma hkeeps_reduce {A B} (f : B -> A -> M B) l :
  (forall b x, In x l -> hkeeps (f b x)) -> forall init, hkeeps (reduce f l init).
Proof.
  induction l as [|x l IH]; intros Hf init; simpl.
  - apply hkeeps_ret.
  - apply hkeeps_bind.
    + apply Hf. simpl. auto.
    + intros b. apply IH. intros b' y Hy. apply Hf. simpl. auto.
Qed.

Lemma hkeeps_clans : hkeeps clans.
Proof.
  unfold clans. apply hkeeps_bind; [now apply hkeeps_alloc|]. intros qs.
  apply hkeeps_bind.
  - apply hkeeps_alloc. intros n g [[= <- <-]|[]] _. reflexivity.
  - intros init. apply hkeeps_bind; [|intros; apply hkeeps_ret].
    apply hkeeps_reduce. intros b field _.
    apply hkeeps_bind; [|intros; apply hkeeps_ret].
    apply hkeeps_define. discriminate.
Qed.

Lemma hkeeps_assign object source : hkeeps (assign object source).
Proof.
  intros w H. unfold assign. unfold bind at 1. unfold read at 1. cbn [fst snd].
  destruct (nth source (heap w) CUninit) eqn:E; auto.
  pose proof (heap_ok_nth _ _ _ H E) as Hm.
  apply hkeeps_reduce; auto. intros b [k f] Hin.
  apply hkeeps_bind; [|intros; apply hkeeps_ret].
  apply hkeeps_define. simpl. intros Hs. apply (Hm _ _ Hin Hs).
Qed.

Lemma hkeeps_resolve scope name : hkeeps (resolve scope name).
Proof. unfold resolve. destruct (existsb _ _); [apply hkeeps_ret|apply hkeeps_throw]. Qed.

Lemma hkeeps_withId_in scope locId : hkeeps (withId_in scope locId).
Proof.
  unfold withId_in.
  apply hkeeps_bind; [now apply hkeeps_alloc|]. intros rankId.
  apply hkeeps_bind; [now apply hkeeps_alloc|]. intros rankingDsl.
  apply hkeeps_bind.
  { apply hkeeps_alloc. intros n g [[= <- <-]|[[= <- <-]|[]]]; discriminate. }
  intros members.
  apply hkeeps_bind; [apply hkeeps_resolve|]. intros _.
  apply hkeeps_bind.
  { apply hkeeps_alloc. intros n g [[= <- <-]|[]] _. reflexivity. }
  intros target.
  apply hkeeps_bind; [apply hkeeps_assign|]. intros r.
  apply hkeeps_bind; [now apply hkeeps_write|]. intros _.
  apply hkeeps_bind; [apply hkeeps_resolve|]. intros _.
  apply hkeeps_bind.
  { apply hkeeps_alloc. intros n g [[= <- <-]|[]]. discriminate. }
  intros target'.
  apply hkeeps_bind; [apply hkeeps_assign|]. intros locDsl. apply hkeeps_ret.
Qed.

Lemma hkeeps_locations : hkeeps locations.
Proof.
  unfold locations. apply hkeeps_bind; [|intros; apply hkeeps_ret].
  apply hkeeps_alloc. intros n g [[= <- <-]|[[= <- <-]|[]]]; [reflexivity|discriminate].
Qed.

Lemma hkeeps_this_requestOptions opts : hkeeps (this_requestOptions opts).
Proof. now intros w H. Qed.

Lemma hkeeps_fetch_uri path : hkeeps (fetch_uri path).
Proof.
  unfold fetch_uri. apply hkeeps_bind; [apply hkeeps_this|]. intros c.
  apply hkeeps_bind; [apply hkeeps_this_requestOptions|].
  intros o. apply hkeeps_request.
Qed.

Lemma hkeeps_read_var a : hkeeps (read_var a).
Proof.
  unfold read_var. apply hkeeps_bind; [apply hkeeps_read|].
  intros c. destruct c; apply hkeeps_ret.
Qed.

Lemma hkeeps_read_const name a : hkeeps (read_const name a).
Proof.
  unfold read_const. apply hkeeps_bind; [apply hkeeps_read|].
  intros c. destruct c; first [apply hkeeps_ret|apply hkeeps_throw].
Qed.

Lemma hkeeps_call f args : hkeeps (call f args).
Proof.
  destruct f; simpl.
  - apply hkeeps_bind; [apply hkeeps_read_var|]. intros q.
    apply hkeeps_bind; [apply hkeeps_this|]. intros c.
    apply hkeeps_bind; [apply hkeeps_this_requestOptions|].
    intros o. apply hkeeps_request.
  - apply hkeeps_bind; [apply hkeeps_assign_property|]. intros _. apply hkeeps_ret.
  - apply hkeeps_fetch_uri.
  - apply hkeeps_withId_in.
  - apply hkeeps_bind; [now apply hkeeps_write|]. intros _.
    apply hkeeps_bind; [apply hkeeps_read_const|]. intros r. apply hkeeps_ret.
  - apply hkeeps_bind; [now apply hkeeps_write|]. intros _.
    apply hkeeps_bind; [apply hkeeps_read_const|]. intros r. apply hkeeps_ret.
  - apply hkeeps_bind; [apply hkeeps_read_var|]. intros r. apply hkeeps_fetch_uri.
  - apply hkeeps_throw.
Qed.

Lemma hkeeps_invoke a name args : hkeeps (invoke a name args).
Proof.
  unfold invoke. apply hkeeps_bind; [apply hkeeps_read|]. intros c.
  destruct c; try apply hkeeps_throw.
  destruct (get name members); [apply hkeeps_call|].
  unfold inherited.
  repeat match goal with
         | |- context [if ?b then _ else _] => destruct b
         end; first [apply hkeeps_ret|apply hkeeps_throw].
Qed.

Lemma hkeeps_call_method m args : hkeeps (call_method m args).
Proof.
  destruct m; simpl;
    first [apply hkeeps_fetch_uri|apply hkeeps_clans|apply hkeeps_locations].
Qed.

Lemma hkeeps_links l : forall r, hkeeps (links r l).
Proof.
  induction l as [|[name args] l IH]; intros r; simpl.
  - apply hkeeps_ret.
  - destruct r; try apply hkeeps_ret.
    apply hkeeps_bind; auto. apply hkeeps_invoke.
Qed.

Lemma hkeeps_run_chain c : hkeeps (run_chain c).
Proof.
  unfold run_chain. apply hkeeps_bind;
    [apply hkeeps_call_method|intros r; apply hkeeps_links].
Qed.

Lemma heap_ok_run_all cs : forall w, heap_ok (heap w) -> heap_ok (heap (run_all cs w)).
Proof.
  induction cs as [|c cs IH]; intros w H; simpl; auto.
  apply IH. now apply hkeeps_run_chain.
Qed.

Lemma call_quiet f args : sends f = false -> quiet (call f args).
Proof.
  destruct f; simpl; try discriminate; intros _.
  - apply quiet_bind; [apply quiet_assign_property|intros; apply quiet_ret].
  - apply quiet_withId_in.
  - apply quiet_bind; [apply quiet_write|]. intros _.
    apply quiet_bind; [apply quiet_read_const|intros; apply quiet_ret].
  - apply quiet_bind; [apply quiet_write|]. intros _.
    apply quiet_bind; [apply quiet_read_const|intros; apply quiet_ret].
  - apply quiet_throw.
Qed.

Lemma invoke_quiet a name args w :
  heap_ok (heap w) -> name <> "fetch" ->
  sent (snd (invoke a name args w)) = sent w.
Proof.
  intros H Hn. unfold invoke, bind, read. cbn [fst snd].
  destruct (nth a (heap w) CUninit) eqn:E; auto.
  destruct (get name members) as [f|] eqn:G; [|apply quiet_inherited].
  apply call_quiet. destruct (sends f) eqn:S; auto.
  exfalso. apply Hn.
  apply (heap_ok_nth _ _ _ H E name f); auto. now apply get_in.
Qed.

Lemma links_quiet l : forall r w,
  no_fetch l -> heap_ok (heap w) -> sent (snd (links r l w)) = sent w.
Proof.
  induction l as [|[name args] l IH]; intros r w Hl H; simpl; auto.
  inversion Hl as [|? ? Hn Hl']; subst. simpl in Hn.
  destruct r as [a|n|]; auto.
  unfold bind. pose proof (invoke_quiet a name args w H Hn) as Hq.
  pose proof (hkeeps_invoke a name args w H) as Hh.
  destruct (invoke a name args w) as [[r'|e] w']; simpl in *; auto.
  rewrite <- Hq. now apply IH.
Qed.

(** X14. Nothing is sent before [fetch]: in the world any sequence of
    chains of calls on a new client leaves, [clans()] or [locations()]
    followed by any calls whatever, under any names but [fetch] (setters,
    [withId], [byClan], [byPlayer], names the objects do not have), issues
    no request.  Every function of the module that hands a request to the
    transport sits under the name [fetch]. *)
Theorem nothing_is_sent_before_fetch
    (c : ClashApi) (cs : list chain) (m : method) (l : list (string * list value)) :
  m = Mclans \/ m = Mlocations ->
  no_fetch l ->
  let w := run_all cs (fresh c) in
  sent (snd (run_chain {| first := m; first_args := []; rest := l |} w)) = sent w.
Proof.
  intros Hm Hl w.
  assert (H : heap_ok (heap w)) by (apply heap_ok_run_all; constructor).
  unfold run_chain, bind. cbn [first first_args rest].
  assert (Hq : sent (snd (call_method m [] w)) = sent w).
  { destruct Hm as [-> | ->]; [apply quiet_clans|apply quiet_locations]. }
  pose proof (hkeeps_call_method m [] w H) as Hh.
  destruct (call_method m [] w) as [[r|e] w']; simpl in *; auto.
  rewrite <- Hq. now apply links_quiet.
Qed.

Lemma nothing_is_sent_before_fetch_witness :
  let c := {| token := VStr "t"; uri := VStr "https://api";
              _requestDefaults := VObj [] |} in
  let cs := [ {| first := Mleagues; first_args := []; rest := [] |} ] in
  sent (snd (run_chain
               {| first := Mclans; first_args := [];
                  rest := [ ("withName", [VStr "abc"]); ("withLimit", [VNum 5]);
                            ("then", []) ] |}
               (run_all cs (fresh c))))
  = sent (run_all cs (fresh c)).
Proof.
  intros c cs.
  apply (nothing_is_sent_before_fetch c cs Mclans
           [ ("withName", [VStr "abc"]); ("withLimit", [VNum 5]); ("then", []) ]
           (or_introl eq_refl)).
  repeat (constructor; [discriminate|]). constructor.
Defined.

End Deferred.


(** ** The names of the setters *)

Module NameFacts.
Import Js Builtins Index Spec.

Lemma is_lower_bounds c :
  is_lower c = true -> 97 <= nat_of_ascii c <= 122.
Proof.
  unfold is_lower, in_range. intros H. apply andb_prop in H. destruct H as [H1 H2].
  apply Nat.leb_le in H1, H2. lia.
Qed.

Lemma toUpperCase_lower c :
  is_lower c = true ->
  nat_of_ascii (toUpperCase c) = nat_of_ascii c - 32.
Proof.
  intros H. unfold toUpperCase. rewrite H.
  apply is_lower_bounds in H. apply nat_ascii_embedding. lia.
Qed.

Lemma toUpperCase_inj c1 c2 :
  is_lower c1 = true -> is_lower c2 = true ->
  toUpperCase c1 = toUpperCase c2 -> c1 = c2.
Proof.
  intros H1 H2 H. apply (f_equal nat_of_ascii) in H.
  rewrite !toUpperCase_lower in H by assumption.
  apply is_lower_bounds in H1, H2.
  rewrite <- (ascii_nat_embedding c1), <- (ascii_nat_embedding c2).
  f_equal. lia.
Qed.

Lemma toUpperCase_not_lower c : is_lower c = true -> is_lower (toUpperCase c) = false.
Proof.
  intros H. unfold is_lower, in_range. rewrite (toUpperCase_lower _ H).
  apply is_lower_bounds in H. apply andb_false_iff. left. apply Nat.leb_gt. lia.
Qed.

(** X15. For field names that start with a lower-case letter, as the ten
    of the clan search do, [capitalizeFirstLetter] changes the first
    letter only, into a letter that is not lower-case, so that applying
    it again changes nothing, and it maps different names to different
    names: no two such fields share a setter, and no setter takes the
    place of [fetch], whatever the field. *)
Theorem setter_names_are_distinct (s1 s2 : string) :
  starts_lower s1 = true -> starts_lower s2 = true ->
  (capitalizeFirstLetter s1 = capitalizeFirstLetter s2 -> s1 = s2)
  /\ (setter_name s1 = setter_name s2 -> s1 = s2)
  /\ starts_lower (capitalizeFirstLetter s1) = false
  /\ capitalizeFirstLetter (capitalizeFirstLetter s1) = capitalizeFirstLetter s1
  /\ String.length (capitalizeFirstLetter s1) = String.length s1
  /\ setter_name s1 <> "fetch".
Proof.
  destruct s1 as [|c1 r1]; [discriminate|]. destruct s2 as [|c2 r2]; [discriminate|].
  simpl. intros H1 H2.
  assert (Hinj : String (toUpperCase c1) r1 = String (toUpperCase c2) r2 ->
                 String c1 r1 = String c2 r2).
  { intros H. injection H as H ->. f_equal. now apply toUpperCase_inj. }
  split; [exact Hinj|]. split; [|split; [|split; [|split]]].
  - unfold setter_name. simpl. intros H. apply Hinj. congruence.
  - now apply toUpperCase_not_lower.
  - f_equal. unfold toUpperCase at 1. now rewrite (toUpperCase_not_lower _ H1).
  - reflexivity.
  - discriminate.
Qed.

Lemma setter_names_are_distinct_witness :
  starts_lower (capitalizeFirstLetter "minMembers") = false
  /\ capitalizeFirstLetter (capitalizeFirstLetter "minMembers")
     = capitalizeFirstLetter "minMembers".
Proof.
  pose proof (setter_names_are_distinct "minMembers" "maxMembers" eq_refl eq_refl)
    as (_ & _ & H1 & H2 & _).
  split; [exact H1|exact H2].
Defined.

End NameFacts.

(** ** [requestOptions] without options *)

Module MissingOptions.
Import Js Lodash Index Spec MergeFacts Options.

(** X16. [requestOptions] called without an argument, or with a falsy
    one, returns what it returns for an empty object: the base template
    with the defaults of the client merged in, which is the base template
    itself when the defaults are empty. *)
Theorem requestOptions_without_options (c : ClashApi) (opts : value) :
  truthy opts = false ->
  requestOptions c opts = requestOptions c (VObj [])
  /\ requestOptions c opts
     = baseMerge (base_template c) (own_props (_requestDefaults c))
  /\ (_requestDefaults c = VObj [] -> requestOptions c opts = base_template c).
Proof.
  intros H. rewrite !requestOptions_unfold, (falsy_no_props _ H). simpl own_props.
  rewrite baseMerge_nil. repeat split. now intros ->.
Qed.

Lemma requestOptions_without_options_witness :
  let c := {| token := VStr "t"; uri := VStr "https://api";
              _requestDefaults := VObj [] |} in
  requestOptions c undefined = base_template c.
Proof.
  intros c.
  apply (proj2 (proj2 (requestOptions_without_options c undefined eq_refl)) eq_refl).
Defined.

End MissingOptions.
